(** * Clarifai provider: request flattening, transport classification and
      the tag/fence tokenizer of [src/api/providers/clarifai.ts].

    The development is a shallow embedding of [ClarifaiHandler.stream] and
    [ClarifaiHandler.parseClarifaiOutput].  JavaScript strings are sequences
    of UTF-16 code units; the block regular expression of the tokenizer is
    kept as a syntax tree and run by a backtracking matcher that follows the
    ECMAScript matching order (alternatives left to right, greedy and lazy
    quantifiers, capture groups, back-references).  The development also
    covers [ClarifaiHandler.getModel], [ClarifaiProvider.validateToken] and
    [testConnection], the Clarifai settings panel with the
    [saveClarifaiSettings] case of [webviewMessageHandler], and the cases
    [toggleApiConfigPin] and [setHistoryPreviewCollapsed]. *)

From Stdlib Require Import List Arith Lia NArith Bool Ascii.
From Stdlib Require String.
Import ListNotations String.StringSyntax.

Bind Scope string_scope with String.string.

(** ** Strings as lists of UTF-16 code units *)

Definition char := N.
Definition str := list char.

Definition lit (s : String.string) : str :=
  map N_of_ascii (String.list_ascii_of_string s).

Definition nl : char := 10%N.

Definition char_eqb (a b : char) : bool := N.eqb a b.

Fixpoint str_eqb (a b : str) : bool :=
  match a, b with
  | [], [] => true
  | x :: a', y :: b' => char_eqb x y && str_eqb a' b'
  | _, _ => false
  end.

(** [t] is a prefix of [s] (the characters of a literal pattern are read
    off the input one by one). *)
Fixpoint starts_with (t s : str) : bool :=
  match t, s with
  | [], _ => true
  | x :: t', y :: s' => char_eqb x y && starts_with t' s'
  | _ :: _, [] => false
  end.

(** [String.prototype.substring(a, b)]: the arguments are swapped when
    [a > b] and clamped to the length. *)
Definition substring (s : str) (a b : nat) : str :=
  let lo := Nat.min a b in
  let hi := Nat.max a b in
  firstn (hi - lo) (skipn lo s).

(** [String.prototype.substring(a)]. *)
Definition substring_from (s : str) (a : nat) : str := skipn a s.

(** ECMAScript [WhiteSpace] and [LineTerminator] code points: the class
    [\s] of regular expressions and the characters removed by [trim]. *)
Definition is_space (c : char) : bool :=
  ((9 <=? c) && (c <=? 13) || (c =? 32) || (c =? 160) || (c =? 5760)
   || (8192 <=? c) && (c <=? 8202) || (c =? 8232) || (c =? 8233)
   || (c =? 8239) || (c =? 8287) || (c =? 12288) || (c =? 65279))%N.

(** The class [\w]: [A-Za-z0-9_]. *)
Definition is_word (c : char) : bool :=
  ((65 <=? c) && (c <=? 90) || (97 <=? c) && (c <=? 122)
   || (48 <=? c) && (c <=? 57) || (c =? 95))%N.

(** The class [.] under the [s] flag: every code unit. *)
Definition is_any (_ : char) : bool := true.

Fixpoint trim_start (s : str) : str :=
  match s with
  | c :: s' => if is_space c then trim_start s' else s
  | [] => []
  end.

Definition trim_end (s : str) : str := rev (trim_start (rev s)).

(** [String.prototype.trim]. *)
Definition trim (s : str) : str := trim_end (trim_start s).

(** [String.prototype.split] with a one-character separator. *)
Fixpoint split_on (sep : char) (s : str) : list str :=
  match s with
  | [] => [[]]
  | c :: s' =>
      if char_eqb c sep then [] :: split_on sep s'
      else match split_on sep s' with
           | seg :: segs => (c :: seg) :: segs
           | [] => [[c]]
           end
  end.

(** ** Regular expressions *)

(** The fragment of ECMAScript patterns used by the tokenizer.  Quantified
    atoms in the source pattern are always character classes ([.*?], [\s*],
    [\w+]), so [Star] takes a class; [\w+] is [Class is_word] followed by
    [Star true is_word]. *)
Inductive regex : Type :=
| Empty
| Str (t : str)                         (* literal characters *)
| Class (p : char -> bool)              (* one character of a class *)
| Seq (r1 r2 : regex)
| Alt (r1 r2 : regex)                   (* r1|r2 *)
| Star (greedy : bool) (p : char -> bool) (* p* and p*? *)
| Opt (r : regex)                       (* (?:r)? *)
| Group (n : nat) (r : regex)           (* n-th capturing group *)
| Backref (n : nat).                    (* \n *)

Declare Scope regex_scope.
Delimit Scope regex_scope with re.
Infix "+>" := Seq (at level 61, right associativity) : regex_scope.
Infix "<|>" := Alt (at level 62, right associativity) : regex_scope.

(** Captures: group number to the half-open range it matched last. *)
Definition caps := list (nat * (nat * nat)).

Fixpoint get_cap (n : nat) (c : caps) : option (nat * nat) :=
  match c with
  | [] => None
  | (k, v) :: c' => if Nat.eqb k n then Some v else get_cap n c'
  end.

Definition set_cap (n : nat) (v : nat * nat) (c : caps) : caps := (n, v) :: c.

Section Matcher.

(** The whole input; the matcher walks it with a position [i] and the
    suffix [rest] that starts at [i]. *)
Variable input : str.

Definition mresult := (nat * caps)%type.
Definition cont := nat -> str -> caps -> option mresult.

(** Greedy [p*]: take as many characters as possible, give one back each
    time the continuation fails. *)
Fixpoint star_greedy (p : char -> bool) (k : cont)
         (i : nat) (rest : str) (c : caps) : option mresult :=
  match rest with
  | x :: rest' =>
      if p x then
        match star_greedy p k (S i) rest' c with
        | Some r => Some r
        | None => k i rest c
        end
      else k i rest c
  | [] => k i rest c
  end.

(** Lazy [p*?]: try the continuation first, take one more character each
    time it fails. *)
Fixpoint star_lazy (p : char -> bool) (k : cont)
         (i : nat) (rest : str) (c : caps) : option mresult :=
  match k i rest c with
  | Some r => Some r
  | None =>
      match rest with
      | x :: rest' => if p x then star_lazy p k (S i) rest' c else None
      | [] => None
      end
  end.

Fixpoint run (r : regex) (k : cont)
         (i : nat) (rest : str) (c : caps) : option mresult :=
  match r with
  | Empty => k i rest c
  | Str t =>
      if starts_with t rest
      then k (i + length t) (skipn (length t) rest) c
      else None
  | Class p =>
      match rest with
      | x :: rest' => if p x then k (S i) rest' c else None
      | [] => None
      end
  | Seq r1 r2 => run r1 (fun i' rest' c' => run r2 k i' rest' c') i rest c
  | Alt r1 r2 =>
      match run r1 k i rest c with
      | Some x => Some x
      | None => run r2 k i rest c
      end
  | Star greedy p =>
      if greedy then star_greedy p k i rest c else star_lazy p k i rest c
  | Opt r1 =>
      (* an iteration that consumes nothing is rejected *)
      match run r1 (fun i' rest' c' =>
                      if Nat.eqb i' i then None else k i' rest' c')
                i rest c with
      | Some x => Some x
      | None => k i rest c
      end
  | Group n r1 =>
      run r1 (fun i' rest' c' => k i' rest' (set_cap n (i, i') c')) i rest c
  | Backref n =>
      match get_cap n c with
      | None => k i rest c
      | Some (a, b) =>
          let t := substring input a b in
          if starts_with t rest
          then k (i + length t) (skipn (length t) rest) c
          else None
      end
  end.

Definition accept : cont := fun i _ c => Some (i, c).

(** The result of a successful [exec]: [index], the end of the match (the
    new [lastIndex] of a global regex) and the captures. *)
Record rmatch : Type := mkMatch {
  m_index : nat;
  m_end : nat;
  m_caps : caps
}.

(** Try the pattern at [i], then at [i+1], ... up to the end of input. *)
Fixpoint search (r : regex) (i : nat) (rest : str) : option rmatch :=
  match run r accept i rest [] with
  | Some (e, c) => Some (mkMatch i e c)
  | None =>
      match rest with
      | [] => None
      | _ :: rest' => search r (S i) rest'
      end
  end.

(** [RegExp.prototype.exec] of a global regex whose [lastIndex] is
    [lastIndex]. *)
Definition exec (r : regex) (lastIndex : nat) : option rmatch :=
  if Nat.leb lastIndex (length input)
  then search r lastIndex (skipn lastIndex input)
  else None.

(** [match[0]] and [match[n]]. *)
Definition full_match (m : rmatch) : str :=
  substring input (m_index m) (m_end m).

Definition group (m : rmatch) (n : nat) : option str :=
  match get_cap n (m_caps m) with
  | Some (a, b) => Some (substring input a b)
  | None => None
  end.

End Matcher.

(** ** The block pattern of [parseClarifaiOutput]

<<
/<(task|environment_details|thinking)>(.*?)<\/\1>
 |tool_code\s*```(?:\w+)?\s*\n(.*?)\s*```
 |tool_result\s*```(?:\w+)?\s*\n(.*?)\s*```/gs
>> *)

Definition tagNames : regex :=
  (Str (lit "task") <|> Str (lit "environment_details")
   <|> Str (lit "thinking"))%re.

Definition tagBlock : regex :=
  (Str (lit "<") +> Group 1 tagNames +> Str (lit ">") +>
   Group 2 (Star false is_any) +>
   Str (lit "</") +> Backref 1 +> Str (lit ">"))%re.

Definition fence : str := lit "```".

Definition fencedBlock (marker : str) (n : nat) : regex :=
  (Str marker +> Star true is_space +> Str fence +>
   Opt (Class is_word +> Star true is_word) +>
   Star true is_space +> Str [nl] +>
   Group n (Star false is_any) +>
   Star true is_space +> Str fence)%re.

Definition blockRegex : regex :=
  (tagBlock <|> fencedBlock (lit "tool_code") 3
   <|> fencedBlock (lit "tool_result") 4)%re.

(** ** Chunks, thrown values and generators *)

(** [ApiStreamChunk]: only the two kinds the provider yields. *)
Inductive chunk : Type :=
| Text (text : str)          (* { type: "text", text } *)
| Reasoning (text : str).    (* { type: "reasoning", text } *)

Definition chunk_value (c : chunk) : str :=
  match c with
  | Text t => t
  | Reasoning t => t
  end.

(** [statusCode] of an error message: a number, or the literal
    ["Network Error"]. *)
Inductive statusCode : Type :=
| CodeNum (n : N)
| CodeText (t : str).

(** Messages of the [Error] objects the handler creates; the template
    strings are kept structured. *)
Inductive message : Type :=
| MsgPatNotConfigured
    (* "Clarifai Personal Access Token (PAT) is not configured." *)
| MsgModelIdNotConfigured
    (* "Clarifai Model ID is not configured." *)
| MsgInvalidModelId (modelId : str)
    (* "Invalid Clarifai Model ID format: ${modelId}. Expected format: ..." *)
| MsgApiError (code : statusCode) (description : str)
    (* "Clarifai API error (${statusCode}): ${statusDescription}" *)
| MsgStreamError (inner : message)
    (* "Clarifai stream error: ${error.message}" *)
| MsgTypeError
    (* reading a property of undefined *)
| MsgForeign (text : str).
    (* message or string form of a value thrown by the transport *)

(** The envelope of a backend response, as far as the handler reads it. *)
Record output : Type := mkOutput {
  out_raw : option str                (* output?.data?.text?.raw *)
}.

Record envelope : Type := mkEnvelope {
  outputs : option (list output);       (* data?.outputs *)
  status_code : option N;               (* data?.status?.code *)
  status_description : option str       (* data?.status?.description *)
}.

Record response : Type := mkResponse {
  status : N;
  data : option envelope
}.

(** Values that reach the [catch] clause of [stream]. *)
Inductive thrown : Type :=
| Error (m : message)                       (* new Error(m) *)
| Cancel                                    (* axios.isCancel(error) *)
| AxiosError (msg : str) (resp : option response) (* axios.isAxiosError(error) *)
| Foreign (text : str).                     (* anything else *)

Inductive outcome (A : Type) : Type :=
| Done (a : A)
| Threw (e : thrown)
| OutOfFuel.

Arguments Done {A} a.
Arguments Threw {A} e.
Arguments OutOfFuel {A}.

(** A generator body run to its end: the chunks it yielded, in order, and
    how it finished. *)
Definition gen (A : Type) : Type := (list chunk * outcome A)%type.

Definition ret {A} (a : A) : gen A := ([], Done a).

Definition bind {A B} (g : gen A) (f : A -> gen B) : gen B :=
  match g with
  | (cs, Done a) => let (cs', o) := f a in (cs ++ cs', o)
  | (cs, Threw e) => (cs, Threw e)
  | (cs, OutOfFuel) => (cs, OutOfFuel)
  end.

Definition yield (c : chunk) : gen unit := ([c], Done tt).

Definition throw {A} (e : thrown) : gen A := ([], Threw e).

(** [try { g } catch (error) { h error }]. *)
Definition try_catch {A} (g : gen A) (h : thrown -> gen A) : gen A :=
  match g with
  | (cs, Threw e) => let (cs', o) := h e in (cs ++ cs', o)
  | _ => g
  end.

Definition when (b : bool) (g : gen unit) : gen unit :=
  if b then g else ret tt.

Notation "g1 ;; g2" := (bind g1 (fun _ => g2))
  (at level 100, g2 at level 200, right associativity).

Definition yielded {A} (g : gen A) : list chunk := fst g.
Definition finished {A} (g : gen A) : outcome A := snd g.

(** ** The tokenizer: [parseClarifaiOutput] *)

(** JavaScript truthiness of a value that is a string or [undefined]. *)
Definition truthy (v : option str) : bool :=
  match v with
  | Some (_ :: _) => true
  | _ => false
  end.

Definition is_tag (tag : option str) (name : String.string) : bool :=
  match tag with
  | Some t => str_eqb t (lit name)
  | None => false
  end.

(** The body of the [while] loop after the text before the match has been
    yielded: the [if (tag) ... else if ... else if ...] cascade. *)
Definition yield_block (outputText : str) (m : rmatch) : gen unit :=
  let fullMatch := full_match outputText m in
  let tag := group outputText m 1 in
  let tagContent := group outputText m 2 in
  let toolCodeContent := group outputText m 3 in
  let toolResultContent := group outputText m 4 in
  if truthy tag then
    if is_tag tag "task" || is_tag tag "environment_details"
       || is_tag tag "thinking"
    then
      match tagContent with
      | Some content => yield (Reasoning (trim content))
      | None => throw (Error MsgTypeError)
      end
    else yield (Text fullMatch)
  else
    match toolCodeContent with
    | Some _ => yield (Text fullMatch)
    | None =>
        match toolResultContent with
        | Some _ => yield (Text fullMatch)
        | None => ret tt
        end
    end.

(** The [while ((match = blockRegex.exec(outputText)) !== null)] loop and
    the tail after it; [fuel] bounds the number of iterations. *)
Fixpoint parseLoop (fuel : nat) (outputText : str) (lastIndex : nat)
  : gen unit :=
  match fuel with
  | 0 => ([], OutOfFuel)
  | S fuel' =>
      match exec outputText blockRegex lastIndex with
      | Some m =>
          let startIndex := m_index m in
          when (lastIndex <? startIndex)
               (yield (Text (substring outputText lastIndex startIndex))) ;;
          yield_block outputText m ;;
          parseLoop fuel' outputText (m_end m)
      | None =>
          when (lastIndex <? length outputText)
               (yield (Text (substring_from outputText lastIndex)))
      end
  end.

(** Every accepted match moves [lastIndex] forward (proved below), so
    [length outputText + 1] iterations are enough. *)
Definition parseClarifaiOutput (outputText : str) : gen unit :=
  parseLoop (S (length outputText)) outputText 0.

(** ** The request: [stream] up to the network call *)

Record ApiHandlerOptions : Type := mkOptions {
  clarifaiPat : option str;
  apiModelId : option str;
  clarifaiApiBaseUrl : option str
}.

(** [Anthropic.MessageParam]: a role and either a string or an array of
    content blocks, of which only text blocks are read. *)
Inductive role : Type := User | Assistant | OtherRole.

Inductive contentItem : Type :=
| TextItem (text : str)      (* { type: "text", text } *)
| OtherItem.                 (* image, tool_use, tool_result, ... *)

Inductive content : Type :=
| ContentString (s : str)
| ContentArray (items : list contentItem).

Record messageParam : Type := mkMessage {
  msg_role : role;
  msg_content : content
}.

(** [Array.prototype.join]. *)
Fixpoint join (sep : str) (l : list str) : str :=
  match l with
  | [] => []
  | [x] => x
  | x :: l' => x ++ sep ++ join sep l'
  end.

Definition item_text (item : contentItem) : str :=
  match item with
  | TextItem t => t
  | OtherItem => []
  end.

Definition content_text (c : content) : str :=
  match c with
  | ContentArray items => join [nl] (map item_text items)
  | ContentString s => s
  end.

(** One iteration of [for (const msg of messages)]. *)
Definition append_message (inputText : str) (msg : messageParam) : str :=
  match msg_role msg with
  | User =>
      ((inputText ++ lit "User: ") ++ content_text (msg_content msg))
        ++ [nl; nl]
  | Assistant =>
      ((inputText ++ lit "Assistant: ") ++ content_text (msg_content msg))
        ++ [nl; nl]
  | OtherRole => inputText
  end.

(** The value of [inputText] when the request body is built. *)
Definition buildInputText (systemPrompt : str) (messages : list messageParam)
  : str :=
  let inputText := [] in
  let inputText :=
    match systemPrompt with
    | _ :: _ => inputText ++ (lit "System: " ++ systemPrompt ++ [nl; nl])
    | [] => inputText
    end in
  fold_left append_message messages inputText.

(** What [axios.post] is called with: the URL, the [Authorization] header
    and the [raw] text of the single input of the body. *)
Record request : Type := mkRequest {
  req_url : str;
  req_authorization : str;
  req_raw : str
}.

(** The outcome of the awaited [axios.post]. *)
Inductive postResult : Type :=
| Resolved (r : response)
| Rejected (e : thrown).

Definition or_else {A} (v : option A) (is_truthy : A -> bool) (d : A) : A :=
  match v with
  | Some a => if is_truthy a then a else d
  | None => d
  end.

Definition nonempty (s : str) : bool :=
  match s with
  | [] => false
  | _ :: _ => true
  end.

Definition nonzero (n : N) : bool := negb (N.eqb n 0).

(** [for (const output of response.data.outputs)]: the raw text of every
    output that has one, each followed by a newline. *)
Definition append_output (fullOutputText : str) (o : output) : str :=
  match out_raw o with
  | Some ((_ :: _) as raw) => fullOutputText ++ (raw ++ [nl])
  | _ => fullOutputText
  end.

Definition collect_outputs (os : list output) : str :=
  fold_left append_output os [].

Definition env_outputs (d : option envelope) : option (list output) :=
  match d with
  | Some e => outputs e
  | None => None
  end.

Definition env_code (d : option envelope) : option N :=
  match d with
  | Some e => status_code e
  | None => None
  end.

Definition env_description (d : option envelope) : option str :=
  match d with
  | Some e => status_description e
  | None => None
  end.

(** [response.data?.outputs?.length > 0]. *)
Definition has_outputs (r : response) : bool :=
  match env_outputs (data r) with
  | Some os => 0 <? length os
  | None => false
  end.

Definition response_outputs (r : response) : list output :=
  match env_outputs (data r) with
  | Some os => os
  | None => []
  end.

(** The [try] block after [axios.post] has resolved. *)
Definition on_response (r : response) : gen unit :=
  if N.eqb (status r) 200 && has_outputs r then
    let fullOutputText := collect_outputs (response_outputs r) in
    if 0 <? length fullOutputText
    then parseClarifaiOutput fullOutputText
    else ret tt                               (* console.warn *)
  else
    let statusDescription :=
      or_else (env_description (data r)) nonempty (lit "Unknown error") in
    let statusCode := or_else (env_code (data r)) nonzero (status r) in
    throw (Error (MsgApiError (CodeNum statusCode) statusDescription)).

(** [error instanceof Error ? error.message : String(error)]. *)
Definition error_message (e : thrown) : message :=
  match e with
  | Error m => m
  | Foreign t => MsgForeign t
  | AxiosError msg _ => MsgForeign msg
  | Cancel => MsgForeign (lit "canceled")
  end.

(** The [catch (error)] clause. *)
Definition on_error (error : thrown) : gen unit :=
  match error with
  | Cancel => ret tt                           (* console.log *)
  | AxiosError msg resp =>
      let rdata := match resp with Some r => data r | None => None end in
      let statusDescription := or_else (env_description rdata) nonempty msg in
      let statusCode :=
        match env_code rdata with
        | Some n => if nonzero n then Some n else None
        | None => None
        end in
      let statusCode :=
        match statusCode with
        | Some n => CodeNum n
        | None =>
            match resp with
            | Some r => if nonzero (status r) then CodeNum (status r)
                        else CodeText (lit "Network Error")
            | None => CodeText (lit "Network Error")
            end
        end in
      throw (Error (MsgApiError statusCode statusDescription))
  | _ => throw (Error (MsgStreamError (error_message error)))
  end.

(** A run of [stream]: the requests handed to [axios.post], in order, and
    the generator's chunks and completion. *)
Record streamRun : Type := mkRun {
  requests : list request;
  produced : gen unit
}.

Definition defaultBaseUrl : str := lit "https://api.clarifai.com".

(** [ClarifaiHandler.stream].  [post] stands for [axios.post] bound to the
    caller's abort signal: it tells how the awaited call ends. *)
Definition stream (options : ApiHandlerOptions) (post : request -> postResult)
           (systemPrompt : str) (messages : list messageParam) : streamRun :=
  let pat := clarifaiPat options in
  let modelId := apiModelId options in
  if negb (truthy pat) then
    mkRun [] (throw (Error MsgPatNotConfigured))
  else if negb (truthy modelId) then
    mkRun [] (throw (Error MsgModelIdNotConfigured))
  else
    let pat := or_else pat nonempty [] in
    let modelId := or_else modelId nonempty [] in
    let modelParts := split_on 47%N modelId in
    if negb (Nat.eqb (length modelParts) 4)
       || negb (str_eqb (nth 2 modelParts []) (lit "models"))
    then mkRun [] (throw (Error (MsgInvalidModelId modelId)))
    else
      let user_id := nth 0 modelParts [] in
      let app_id := nth 1 modelParts [] in
      let model_name := nth 3 modelParts [] in
      let baseUrl :=
        or_else (clarifaiApiBaseUrl options) nonempty defaultBaseUrl in
      let url := baseUrl ++ lit "/v2/users/" ++ user_id ++ lit "/apps/"
                   ++ app_id ++ lit "/models/" ++ model_name
                   ++ lit "/outputs" in
      let inputText := buildInputText systemPrompt messages in
      let req := mkRequest url (lit "Key " ++ pat) inputText in
      mkRun [req]
            (try_catch
               (match post req with
                | Resolved r => on_response r
                | Rejected e => throw e
                end)
               on_error).

(** ** What a successful run has read

    [den r i c j c'] says what a successful run of [r] from position [i]
    with captures [c] to position [j] with captures [c'] has read. *)

Section Denotation.

Variable input : str.

Fixpoint den (r : regex) (i : nat) (c : caps) (j : nat) (c' : caps) : Prop :=
  match r with
  | Empty => j = i /\ c' = c
  | Str t => substring input i j = t /\ j = i + length t /\ c' = c
  | Class p =>
      (exists x, substring input i j = [x] /\ p x = true)
      /\ j = S i /\ c' = c
  | Seq r1 r2 =>
      exists m cm, (i <= m <= j) /\ den r1 i c m cm /\ den r2 m cm j c'
  | Alt r1 r2 => den r1 i c j c' \/ den r2 i c j c'
  | Star _ p => forallb p (substring input i j) = true /\ c' = c
  | Opt r1 => den r1 i c j c' \/ (j = i /\ c' = c)
  | Group n r1 => exists c1, den r1 i c j c1 /\ c' = set_cap n (i, j) c1
  | Backref n =>
      match get_cap n c with
      | None => j = i /\ c' = c
      | Some (a, b) =>
          substring input i j = substring input a b
          /\ j = i + length (substring input a b) /\ c' = c
      end
  end.

End Denotation.

(** ** Recognized blocks and the segments of a response *)

Definition tag_name (T : str) : Prop :=
  T = lit "task" \/ T = lit "environment_details" \/ T = lit "thinking".

(** What [exec] of the block pattern can return. *)
Inductive block_shape (s : str) (m : rmatch) : Prop :=
| TagShape (T X : str) :
    tag_name T ->
    group s m 1 = Some T ->
    group s m 2 = Some X ->
    full_match s m = lit "<" ++ T ++ lit ">" ++ X ++ lit "</" ++ T ++ lit ">" ->
    block_shape s m
| FenceShape (marker : str) (n a b : nat) (ws : str) :
    (marker = lit "tool_code" /\ n = 3)
    \/ (marker = lit "tool_result" /\ n = 4) ->
    m_caps m = [(n, (a, b))] ->
    m_index m + length marker + 4 <= a -> a <= b ->
    m_end m = b + length ws + 3 ->
    substring s (m_index m) (m_index m + length marker) = marker ->
    substring s (a - 1) a = [nl] ->
    substring s b (m_end m) = ws ++ fence ->
    forallb is_space ws = true ->
    block_shape s m.

(** The matches the [while] loop accepts, in order. *)
Fixpoint matchesFrom (fuel : nat) (s : str) (lastIndex : nat) : list rmatch :=
  match fuel with
  | 0 => []
  | S fuel' =>
      match exec s blockRegex lastIndex with
      | Some m => m :: matchesFrom fuel' s (m_end m)
      | None => []
      end
  end.

Definition recognized (s : str) : list rmatch :=
  matchesFrom (S (length s)) s 0.

(** A response cut at its recognized blocks: plain text, a tag block with
    its name and inner content, a fenced block with its opening delimiter
    (marker, fence, language, newline), body and closing delimiter. *)
Inductive segment : Type :=
| Plain (t : str)
| TagBlock (name inner : str)
| FencedBlock (opening body closing : str).

Definition block_segment (s : str) (m : rmatch) : segment :=
  match get_cap 1 (m_caps m), get_cap 2 (m_caps m) with
  | Some (a1, b1), Some (a2, b2) =>
      TagBlock (substring s a1 b1) (substring s a2 b2)
  | _, _ =>
      match get_cap 3 (m_caps m), get_cap 4 (m_caps m) with
      | Some (a, b), _ | None, Some (a, b) =>
          FencedBlock (substring s (m_index m) a) (substring s a b)
                      (substring s b (m_end m))
      | None, None => Plain (full_match s m)
      end
  end.

Fixpoint segments_from (s : str) (lastIndex : nat) (ms : list rmatch)
  : list segment :=
  match ms with
  | [] => [Plain (substring_from s lastIndex)]
  | m :: ms' =>
      Plain (substring s lastIndex (m_index m))
        :: block_segment s m :: segments_from s (m_end m) ms'
  end.

Definition segments (s : str) : list segment :=
  segments_from s 0 (recognized s).

(** The text a segment stands for in the response. *)
Definition segment_source (g : segment) : str :=
  match g with
  | Plain t => t
  | TagBlock T X => lit "<" ++ T ++ lit ">" ++ X ++ lit "</" ++ T ++ lit ">"
  | FencedBlock o b c => o ++ b ++ c
  end.

Definition source_text (gs : list segment) : str :=
  concat (map segment_source gs).

(** The chunks a segment is emitted as. *)
Definition segment_chunks (g : segment) : list chunk :=
  match g with
  | Plain [] => []
  | Plain t => [Text t]
  | TagBlock _ X => [Reasoning (trim X)]
  | FencedBlock o b c => [Text (o ++ b ++ c)]
  end.

Definition concat_values (cs : list chunk) : str :=
  concat (map chunk_value cs).

(** The cursor moves strictly forward over the accepted matches. *)
Fixpoint cursor_advances (s : str) (lastIndex : nat) (ms : list rmatch)
  : Prop :=
  match ms with
  | [] => True
  | m :: ms' =>
      lastIndex <= m_index m /\ m_index m < m_end m /\ lastIndex < m_end m
      /\ m_end m <= length s /\ cursor_advances s (m_end m) ms'
  end.

(** [String.prototype.includes]. *)
Fixpoint includes (s t : str) : bool :=
  starts_with t s
  || match s with
     | [] => false
     | _ :: s' => includes s' t
     end.

Definition lt_char : char := 60%N.

(** A segment with its delimiters removed and [inner] applied to what is
    left of a block. *)
Definition without_delimiters (inner : str -> str) (g : segment) : str :=
  match g with
  | Plain t => t
  | TagBlock _ X => inner X
  | FencedBlock _ b _ => inner b
  end.

(** The response with only the tag and fence delimiters removed. *)
Definition delimiters_removed (s : str) : str :=
  concat (map (without_delimiters (fun X => X)) (segments s)).

(** What the tokenizer keeps of a segment: plain text and fenced blocks
    verbatim, the trimmed content of a tag block. *)
Definition emitted_text (g : segment) : str :=
  match g with
  | Plain t => t
  | TagBlock _ X => trim X
  | FencedBlock o b c => o ++ b ++ c
  end.

Definition segment_well_formed (g : segment) : Prop :=
  match g with
  | Plain _ => True
  | TagBlock T _ => tag_name T
  | FencedBlock o _ c =>
      (exists r, o = lit "tool_code" ++ r ++ [nl]
                 \/ o = lit "tool_result" ++ r ++ [nl])
      /\ exists ws, c = ws ++ fence /\ forallb is_space ws = true
  end.

(** ** Vocabulary of the claims about [stream] *)

(** [!v] for a string or [undefined]: absent, or the empty string. *)
Definition absent (v : option str) : Prop := v = None \/ v = Some [].

(** [user_id/app_id/models/model_name]: four segments, the third one
    [models]. *)
Definition well_shaped (modelId : str) : bool :=
  let parts := split_on 47%N modelId in
  Nat.eqb (length parts) 4 && str_eqb (nth 2 parts []) (lit "models").

Definition is_configuration_error (m : message) : Prop :=
  m = MsgPatNotConfigured \/ m = MsgModelIdNotConfigured
  \/ exists modelId, m = MsgInvalidModelId modelId.

(** The flattening of section 4.2 in the words of the specification: the
    system line when a prompt is present, then one labelled paragraph per
    user or assistant message. *)
Fixpoint intersperse (sep : str) (parts : list str) : list str :=
  match parts with
  | [] => []
  | [x] => [x]
  | x :: rest => x :: sep :: intersperse sep rest
  end.

Definition message_text_spec (c : content) : str :=
  match c with
  | ContentString s => s
  | ContentArray items =>
      concat (intersperse [nl]
                (map (fun item => match item with
                                  | TextItem t => t
                                  | OtherItem => []
                                  end) items))
  end.

Definition paragraph_spec (m : messageParam) : str :=
  match msg_role m with
  | User => lit "User: " ++ message_text_spec (msg_content m) ++ [nl; nl]
  | Assistant =>
      lit "Assistant: " ++ message_text_spec (msg_content m) ++ [nl; nl]
  | OtherRole => []
  end.

Definition flatten_spec (systemPrompt : str) (messages : list messageParam)
  : str :=
  (if nonempty systemPrompt
   then lit "System: " ++ systemPrompt ++ [nl; nl] else [])
    ++ concat (map paragraph_spec messages).

(** A configuration every check of [stream] accepts, and the envelope of
    the example of section 8. *)
Definition sampleOptions : ApiHandlerOptions :=
  mkOptions (Some (lit "key")) (Some (lit "user/app/models/name")) None.

Definition helloEnvelope : envelope :=
  mkEnvelope
    (Some [mkOutput (Some (lit "Hello <thinking>ponder</thinking> world"))])
    None None.

(** ** Vocabulary of the further properties *)

(** The closing tag [</T>]. *)
Definition closing_tag (T : str) : str := lit "</" ++ T ++ lit ">".

(** A string that [trim] leaves alone: no white space at either end. *)
Definition first_char (s : str) : option char := hd_error s.
Definition last_char (s : str) : option char := hd_error (rev s).

(** The output texts [stream] keeps: those that are present and not
    empty, in the order of the [outputs] array. *)
Definition usable_texts (os : list output) : list str :=
  flat_map (fun o => match out_raw o with
                     | Some t => if nonempty t then [t] else []
                     | None => []
                     end) os.

(** The characters of [s] are all different from [sep]. *)
Definition free_of (sep : char) (s : str) : bool :=
  forallb (fun c => negb (char_eqb c sep)) s.

Definition slash : char := 47%N.

(** ** [getModel]

    [clarifaiModels] and [clarifaiDefaultModelId] come from
    [shared/api], which is not part of these sources.  [clarifaiModels id]
    stands for the property access [clarifaiModels[id]]: it is [None] when
    the access gives [undefined], and it also finds what the object
    inherits (for instance under the id [constructor]).  The default id is
    taken as a string. *)

Section GetModel.

Variable ModelInfo : Type.
Variable clarifaiModels : str -> option ModelInfo.
Variable clarifaiDefaultModelId : str.

(** [ClarifaiHandler.getModel]: [info] is [None] when the lookup of both
    ids is [undefined]. *)
Definition getModel (options : ApiHandlerOptions) : str * option ModelInfo :=
  let modelId :=
    or_else (apiModelId options) nonempty clarifaiDefaultModelId in
  let modelInfo :=
    match clarifaiModels modelId with
    | Some info => Some info
    | None => clarifaiModels clarifaiDefaultModelId
    end in
  (modelId, modelInfo).

End GetModel.

(** ** [ClarifaiProvider]: [validateToken] and [testConnection] *)

(** The class [[a-zA-Z0-9]]. *)
Definition is_alnum (c : char) : bool :=
  ((97 <=? c) && (c <=? 122) || (65 <=? c) && (c <=? 90)
   || (48 <=? c) && (c <=? 57))%N.

(** The assertion [$] (no [m] flag) followed by acceptance: the match
    must end at the end of the input. *)
Definition at_end : cont :=
  fun i rest c =>
    match rest with
    | [] => Some (i, c)
    | _ :: _ => None
    end.

(** [/^r$/.test(s)]: [^] (no [m] flag) holds at position 0 only, so of the
    start positions [test] tries only the first can succeed. *)
Definition test_anchored (r : regex) (s : str) : bool :=
  match run s r at_end 0 s [] with
  | Some _ => true
  | None => false
  end.

(** [[a-zA-Z0-9]+]. *)
Definition tokenPattern : regex :=
  (Class is_alnum +> Star true is_alnum)%re.

(** [token.length >= 32 && /^[a-zA-Z0-9]+$/.test(token)]. *)
Definition validateToken (token : str) : bool :=
  (32 <=? length token) && test_anchored tokenPattern token.

(** What [fetch] is called with, and how the awaited call ends. *)
Record fetchRequest : Type := mkFetch {
  fetch_url : str;
  fetch_authorization : str
}.

Inductive fetchResult : Type :=
| FetchResolved (ok : bool)     (* response.ok *)
| FetchRejected.

(** [ClarifaiProvider.testConnection]: the requests made and the boolean
    the promise resolves to. *)
Definition testConnection (options : ApiHandlerOptions)
           (fetch : fetchRequest -> fetchResult) : list fetchRequest * bool :=
  let pat := clarifaiPat options in
  let baseUrl :=
    or_else (clarifaiApiBaseUrl options) nonempty defaultBaseUrl in
  if negb (truthy pat) then ([], false)
  else
    let pat := or_else pat nonempty [] in
    let req := mkFetch (baseUrl ++ lit "/v2/models") (lit "Key " ++ pat) in
    match fetch req with
    | FetchResolved ok => ([req], ok)
    | FetchRejected => ([req], false)        (* catch (error) *)
    end.

(** ** The Clarifai settings panel and its messages

    [ClarifaiSettings.tsx] posts messages to the extension and listens to
    the answers; [webviewMessageHandler] answers [saveClarifaiSettings]. *)

Record settingsState : Type := mkSettings {
  st_pat : str;
  st_baseUrl : str;
  isTesting : bool;
  testResult : option bool;
  isSaving : bool;
  saveResult : option bool
}.

(** Messages of the panel to the extension. *)
Inductive panelMessage : Type :=
| GetClarifaiSettings
| TestClarifaiConnection (pat baseUrl : str)
| SaveClarifaiSettings (pat baseUrl : str).

(** Messages of the extension to the panel. *)
Inductive extensionMessage : Type :=
| ClarifaiSettings (pat baseUrl : option str)
| ClarifaiTestResult (success : bool)
| ClarifaiSettingsSaved (success : bool) (error : option str).

(** [handleSave]. *)
Definition handleSave (st : settingsState) : settingsState * panelMessage :=
  (mkSettings (st_pat st) (st_baseUrl st) (isTesting st) None true None,
   SaveClarifaiSettings (st_pat st) (st_baseUrl st)).

(** [handleTestConnection]. *)
Definition handleTestConnection (st : settingsState)
  : settingsState * panelMessage :=
  (mkSettings (st_pat st) (st_baseUrl st) true None (isSaving st) None,
   TestClarifaiConnection (st_pat st) (st_baseUrl st)).

(** The [message] listener of the panel. *)
Definition handler (st : settingsState) (message : extensionMessage)
  : settingsState :=
  match message with
  | ClarifaiSettings pat baseUrl =>
      mkSettings (or_else pat nonempty [])
                 (or_else baseUrl nonempty defaultBaseUrl)
                 (isTesting st) (testResult st) (isSaving st) (saveResult st)
  | ClarifaiTestResult success =>
      mkSettings (st_pat st) (st_baseUrl st) false (Some success)
                 (isSaving st) (saveResult st)
  | ClarifaiSettingsSaved success _ =>
      mkSettings (st_pat st) (st_baseUrl st) (isTesting st) (testResult st)
                 false (Some success)
  end.

(** [case "saveClarifaiSettings"] of [webviewMessageHandler]: the message
    posted back to the webview, given [message.values]. *)
Definition saveClarifaiSettingsCase (values : option (list (str * str)))
  : extensionMessage :=
  match values with
  | Some _ =>
      ClarifaiSettingsSaved false (Some (lit "Deprecated message type."))
  | None => ClarifaiSettingsSaved false (Some (lit "Missing values."))
  end.

(** ** Sets of strings in the global state

    [new Set(array)], [has], [add], [delete] and [Array.from(set)] on
    strings: a set keeps its elements in insertion order, once each. *)

Definition set_has (s : list str) (x : str) : bool := existsb (str_eqb x) s.

Definition set_add (s : list str) (x : str) : list str :=
  if set_has s x then s else s ++ [x].

Definition set_delete (s : list str) (x : str) : list str :=
  filter (fun y => negb (str_eqb x y)) s.

Definition set_of_array (a : option (list str)) : list str :=
  match a with
  | Some l => fold_left set_add l []
  | None => []
  end.

(** [case "toggleApiConfigPin"]: the array written to
    [pinnedApiConfigs] (followed by [postStateToWebview]), or [None] when
    [message.text] is missing or empty and nothing happens. *)
Definition toggleApiConfigPin (text : option str)
           (pinnedApiConfigs : option (list str)) : option (list str) :=
  match text with
  | Some ((_ :: _) as text) =>
      let pinned := set_of_array pinnedApiConfigs in
      Some (if set_has pinned text then set_delete pinned text
            else set_add pinned text)
  | _ => None
  end.

(** [case "setHistoryPreviewCollapsed"]: the array written to
    [collapsedHistoryPreviews], or [None] when [message.text] is missing or
    empty; [collapsed] is the truthiness of [message.bool]. *)
Definition setHistoryPreviewCollapsed (text : option str) (collapsed : bool)
           (collapsedHistoryPreviews : option (list str))
  : option (list str) :=
  match text with
  | Some ((_ :: _) as text) =>
      let previews := set_of_array collapsedHistoryPreviews in
      Some (if collapsed then set_add previews text
            else set_delete previews text)
  | _ => None
  end.

(** ** Inputs made of plain text and tag blocks

    Two descriptions of such inputs that do not depend on the tokenizer:
    nested markup, and flat documents (a leading text, then blocks each
    followed by a text). *)




(** The opening tag [<T>]. *)
Definition opening_tag (T : str) : str := lit "<" ++ T ++ lit ">".


(** A tag block [<T>X</T>] and the plain text after it. *)
Record tag_block : Type := mkBlock {
  blk_name : str;
  blk_inner : str;
  blk_after : str
}.

Definition block_text (b : tag_block) : str :=
  opening_tag (blk_name b) ++ blk_inner b ++ closing_tag (blk_name b).







(** What follows a plain text in a flat document: nothing, or a block. *)
Definition block_follows (rest : str) : Prop :=
  rest = [] \/ exists u, rest = lt_char :: u.



(** ** Proof automation *)

Ltac lit_lengths :=
  repeat match goal with
    | H : context [length (lit ?x)] |- _ =>
        let n := eval vm_compute in (length (lit x)) in
        change (length (lit x)) with n in H
    | |- context [length (lit ?x)] =>
        let n := eval vm_compute in (length (lit x)) in
        change (length (lit x)) with n
    end.

(** * Properties *)

(** ** Strings *)

Lemma char_eqb_eq a b : char_eqb a b = true <-> a = b.
Proof. apply N.eqb_eq. Qed.

Lemma str_eqb_eq a : forall b, str_eqb a b = true <-> a = b.
Proof.
  induction a as [|x a IH]; intros [|y b]; simpl; split; intro H;
    try discriminate; try reflexivity.
  - apply andb_true_iff in H as [H1 H2].
    apply char_eqb_eq in H1. apply IH in H2. congruence.
  - injection H as -> ->. apply andb_true_iff. split.
    + now apply char_eqb_eq.
    + now apply IH.
Qed.

Lemma starts_with_app t : forall s,
  starts_with t s = true <-> exists u, s = t ++ u.
Proof.
  induction t as [|x t IH]; intros s; simpl.
  - split; [intros _; now exists s | reflexivity].
  - destruct s as [|y s].
    + split; [discriminate | intros [u Hu]; discriminate].
    + rewrite andb_true_iff, char_eqb_eq, IH. split.
      * intros [-> [u ->]]. now exists u.
      * intros [u Hu]. injection Hu as -> ->. split; [reflexivity | now exists u].
Qed.

Lemma substring_le s a b :
  a <= b -> substring s a b = firstn (b - a) (skipn a s).
Proof.
  intros H. unfold substring.
  now rewrite Nat.min_l, Nat.max_r by lia.
Qed.

Lemma substring_length s a b :
  a <= b -> b <= length s -> length (substring s a b) = b - a.
Proof.
  intros Hab Hb. rewrite substring_le by assumption.
  rewrite length_firstn, length_skipn. lia.
Qed.

Lemma firstn_plus (l : str) m n :
  firstn (m + n) l = firstn m l ++ firstn n (skipn m l).
Proof.
  revert l. induction m as [|m IH]; intros [|x l]; simpl;
    try reflexivity.
  - now rewrite firstn_nil.
  - now rewrite IH.
Qed.

Lemma substring_split s a m b :
  a <= m -> m <= b ->
  substring s a b = substring s a m ++ substring s m b.
Proof.
  intros H1 H2. rewrite !substring_le by lia.
  replace (b - a) with ((m - a) + (b - m)) by lia.
  rewrite firstn_plus, skipn_skipn.
  now replace (m - a + a) with m by lia.
Qed.

Lemma substring_same s a : substring s a a = [].
Proof. rewrite substring_le by lia. now rewrite Nat.sub_diag. Qed.

Lemma substring_to_end s a :
  substring s a (length s) = skipn a s.
Proof.
  destruct (Nat.le_gt_cases a (length s)) as [H|H].
  - rewrite substring_le by assumption.
    apply firstn_all2. rewrite length_skipn. lia.
  - unfold substring. rewrite Nat.min_r, Nat.max_l by lia.
    rewrite !skipn_all2 by lia. now rewrite firstn_nil.
Qed.

Lemma substring_all s : substring s 0 (length s) = s.
Proof. now rewrite substring_to_end. Qed.

Lemma skipn_cons_inv (s : str) i x rest :
  skipn i s = x :: rest ->
  i < length s /\ nth_error s i = Some x /\ skipn (S i) s = rest.
Proof.
  revert s. induction i as [|i IH]; intros [|y s] H; simpl in *;
    try discriminate.
  - injection H as -> ->. repeat split. lia.
  - destruct (IH _ H) as (H1 & H2 & H3). repeat split; try assumption. lia.
Qed.

Lemma skipn_app_inv (s : str) i t u :
  skipn i s = t ++ u ->
  i <= length s ->
  i + length t <= length s /\ substring s i (i + length t) = t
  /\ skipn (i + length t) s = u.
Proof.
  intros H Hi.
  assert (Hl : length (skipn i s) = length t + length u)
    by (rewrite H; apply length_app).
  rewrite length_skipn in Hl.
  split; [lia|]. split.
  - rewrite substring_le by lia. rewrite H.
    replace (i + length t - i) with (length t + 0) by lia.
    rewrite firstn_app_2. simpl. apply app_nil_r.
  - rewrite Nat.add_comm, <- skipn_skipn, H.
    rewrite skipn_app, skipn_all, Nat.sub_diag. reflexivity.
Qed.

Lemma substring_char s i x :
  nth_error s i = Some x -> substring s i (S i) = [x].
Proof.
  intros H. rewrite substring_le by lia.
  replace (S i - i) with 1 by lia.
  revert s H. induction i as [|i IH]; intros [|y s] H; simpl in *;
    try discriminate.
  - now injection H as ->.
  - now apply IH.
Qed.

(** ** Soundness of the matcher *)

Section MatcherSound.

Variable input : str.

Lemma star_greedy_sound p (k : cont) : forall rest i c x,
  skipn i input = rest -> i <= length input ->
  star_greedy p k i rest c = Some x ->
  exists j, i <= j <= length input
            /\ forallb p (substring input i j) = true
            /\ k j (skipn j input) c = Some x.
Proof.
  induction rest as [|y rest IH]; intros i c x Hr Hi H; simpl in H.
  - exists i. rewrite substring_same, Hr. repeat split; try lia; assumption.
  - destruct (skipn_cons_inv _ _ _ _ Hr) as (Hlt & Hnth & Hr').
    destruct (p y) eqn:Hp.
    + destruct (star_greedy p k (S i) rest c) as [r|] eqn:Hg.
      * injection H as ->.
        destruct (IH _ _ _ Hr' Hlt Hg) as (j & Hj & Hall & Hk).
        exists j. repeat split; try lia; try assumption.
        rewrite (substring_split input i (S i) j) by lia.
        rewrite (substring_char _ _ _ Hnth). simpl. now rewrite Hp.
      * exists i. rewrite substring_same, Hr.
        repeat split; try lia; assumption.
    + exists i. rewrite substring_same, Hr.
      repeat split; try lia; assumption.
Qed.

Lemma star_lazy_sound p (k : cont) : forall rest i c x,
  skipn i input = rest -> i <= length input ->
  star_lazy p k i rest c = Some x ->
  exists j, i <= j <= length input
            /\ forallb p (substring input i j) = true
            /\ k j (skipn j input) c = Some x.
Proof.
  induction rest as [|y rest IH]; intros i c x Hr Hi H; simpl in H.
  - destruct (k i [] c) as [r|] eqn:Hk; [|discriminate].
    injection H as ->. exists i. rewrite substring_same, Hr.
    repeat split; try lia; assumption.
  - destruct (k i (y :: rest) c) as [r|] eqn:Hk.
    + injection H as ->. exists i. rewrite substring_same, Hr.
      repeat split; try lia; assumption.
    + destruct (skipn_cons_inv _ _ _ _ Hr) as (Hlt & Hnth & Hr').
      destruct (p y) eqn:Hp; [|discriminate].
      destruct (IH _ _ _ Hr' Hlt H) as (j & Hj & Hall & Hk').
      exists j. repeat split; try lia; try assumption.
      rewrite (substring_split input i (S i) j) by lia.
      rewrite (substring_char _ _ _ Hnth). simpl. now rewrite Hp.
Qed.

Lemma literal_sound t (k : cont) i c x :
  i <= length input ->
  (if starts_with t (skipn i input)
   then k (i + length t) (skipn (length t) (skipn i input)) c
   else None) = Some x ->
  i + length t <= length input
  /\ substring input i (i + length t) = t
  /\ k (i + length t) (skipn (i + length t) input) c = Some x.
Proof.
  intros Hi H.
  destruct (starts_with t (skipn i input)) eqn:Hs; [|discriminate].
  apply starts_with_app in Hs as [u Hu].
  destruct (skipn_app_inv _ _ _ _ Hu Hi) as (H1 & H2 & H3).
  repeat split; try assumption.
  rewrite skipn_skipn, (Nat.add_comm (length t) i) in H. exact H.
Qed.

(** A successful run has read what [den] says and ends in a successful
    call of its continuation. *)
Lemma run_sound r : forall k i c x,
  i <= length input ->
  run input r k i (skipn i input) c = Some x ->
  exists j c', den input r i c j c' /\ i <= j <= length input
               /\ k j (skipn j input) c' = Some x.
Proof.
  induction r as [|t|p|r1 IH1 r2 IH2|r1 IH1 r2 IH2|g p|r1 IH1|n r1 IH1|n];
    intros k i c x Hi H; simpl in H.
  - exists i, c. simpl. repeat split; try lia; assumption.
  - destruct (literal_sound _ _ _ _ _ Hi H) as (H1 & H2 & H3).
    exists (i + length t), c. simpl. repeat split; try lia; assumption.
  - destruct (skipn i input) as [|y rest] eqn:Hr; [discriminate|].
    destruct (skipn_cons_inv _ _ _ _ Hr) as (Hlt & Hnth & Hr').
    destruct (p y) eqn:Hp; [|discriminate].
    exists (S i), c. rewrite Hr'. simpl.
    repeat split; try lia; try assumption.
    exists y. split; [now apply substring_char | assumption].
  - destruct (IH1 _ _ _ _ Hi H) as (m & cm & Hd1 & Hm & H').
    destruct (IH2 _ _ _ _ (proj2 Hm) H') as (j & c' & Hd2 & Hj & Hk).
    exists j, c'. simpl. repeat split; try lia; try assumption.
    exists m, cm. repeat split; try lia; assumption.
  - destruct (run input r1 k i (skipn i input) c) as [y|] eqn:H1.
    + injection H as ->.
      destruct (IH1 _ _ _ _ Hi H1) as (j & c' & Hd & Hj & Hk).
      exists j, c'. simpl. repeat split; try lia; try assumption. now left.
    + destruct (IH2 _ _ _ _ Hi H) as (j & c' & Hd & Hj & Hk).
      exists j, c'. simpl. repeat split; try lia; try assumption. now right.
  - assert (Hs : exists j, i <= j <= length input
              /\ forallb p (substring input i j) = true
              /\ k j (skipn j input) c = Some x).
    { destruct g.
      - now apply (star_greedy_sound p k (skipn i input)).
      - now apply (star_lazy_sound p k (skipn i input)). }
    destruct Hs as (j & Hj & Hall & Hk).
    exists j, c. simpl. repeat split; try lia; assumption.
  - match type of H with
    | match ?e with _ => _ end = _ => destruct e as [y|] eqn:H1
    end.
    + injection H as ->.
      destruct (IH1 _ _ _ _ Hi H1) as (j & c' & Hd & Hj & Hk).
      destruct (Nat.eqb j i); [discriminate|].
      exists j, c'. simpl. repeat split; try lia; try assumption. now left.
    + exists i, c. simpl. repeat split; try lia; try assumption.
      right. now split.
  - destruct (IH1 _ _ _ _ Hi H) as (j & c' & Hd & Hj & Hk).
    exists j, (set_cap n (i, j) c'). simpl.
    repeat split; try lia; try assumption.
    exists c'. now split.
  - simpl. destruct (get_cap n c) as [[a b]|] eqn:Hc.
    + destruct (literal_sound _ _ _ _ _ Hi H) as (H1 & H2 & H3).
      exists (i + length (substring input a b)), c.
      repeat split; try lia; assumption.
    + exists i, c. repeat split; try lia; assumption.
Qed.

(** [search] returns the first position at or after [i] where the
    pattern matches. *)
Lemma search_sound r : forall rest i m,
  skipn i input = rest -> i <= length input ->
  search input r i rest = Some m ->
  i <= m_index m /\ m_index m <= m_end m <= length input
  /\ den input r (m_index m) [] (m_end m) (m_caps m)
  /\ forall j, i <= j < m_index m ->
               run input r (accept) j (skipn j input) [] = None.
Proof.
  induction rest as [|y rest IH]; intros i m Hr Hi H; simpl in H.
  - destruct (run input r accept i [] []) as [[e c]|] eqn:Hrun;
      [|discriminate].
    injection H as <-. simpl. rewrite <- Hr in Hrun.
    destruct (run_sound _ _ _ _ _ Hi Hrun) as (j & c' & Hd & Hj & Hk).
    unfold accept in Hk. injection Hk as -> ->.
    repeat split; try lia; try assumption.
  - destruct (run input r accept i (y :: rest) []) as [[e c]|] eqn:Hrun.
    + injection H as <-. simpl. rewrite <- Hr in Hrun.
      destruct (run_sound _ _ _ _ _ Hi Hrun) as (j & c' & Hd & Hj & Hk).
      unfold accept in Hk. injection Hk as -> ->.
      repeat split; try lia; try assumption.
    + destruct (skipn_cons_inv _ _ _ _ Hr) as (Hlt & Hnth & Hr').
      destruct (IH _ _ Hr' Hlt H) as (H1 & H2 & H3 & H4).
      repeat split; try lia; try assumption.
      intros j Hj.
      destruct (Nat.eq_dec j i) as [->|Hne].
      * now rewrite Hr.
      * apply H4. lia.
Qed.

Lemma exec_sound r lastIndex m :
  exec input r lastIndex = Some m ->
  lastIndex <= m_index m /\ m_index m <= m_end m <= length input
  /\ den input r (m_index m) [] (m_end m) (m_caps m).
Proof.
  unfold exec. destruct (Nat.leb lastIndex (length input)) eqn:Hle;
    [|discriminate].
  apply Nat.leb_le in Hle. intros H.
  destruct (search_sound r (skipn lastIndex input) _ _ eq_refl Hle H)
    as (H1 & H2 & H3 & _).
  repeat split; try lia; assumption.
Qed.

End MatcherSound.

(** ** The shape of a recognized block *)

Lemma tagBlock_den s i e c :
  den s tagBlock i [] e c ->
  exists T a b,
    tag_name T /\ c = [(2, (a, b)); (1, (S i, S i + length T))]
    /\ a = S (S i + length T) /\ a <= b /\ e = b + 2 + length T + 1
    /\ substring s i (S i) = lit "<"
    /\ substring s (S i) (S i + length T) = T
    /\ substring s (S i + length T) a = lit ">"
    /\ substring s b e = lit "</" ++ T ++ lit ">".
Proof.
  unfold tagBlock, tagNames. cbn [den].
  intros (m1 & c1 & Hb1 & (Hs1 & -> & ->) & m2 & c2 & Hb2 & (c1' & Hn & ->)
          & m3 & c3 & Hb3 & (Hs3 & -> & ->) & m4 & c4 & Hb4
          & (c3' & (Hs4 & ->) & ->) & m5 & c5 & Hb5 & (Hs5 & -> & ->)
          & m6 & c6 & Hb6 & Hbr & (Hs7 & -> & ->)).
  assert (HT : exists T, tag_name T /\ substring s (S i) m2 = T
                         /\ m2 = S i + length T /\ c1' = []).
  { lit_lengths. replace (i + 1) with (S i) in Hn by lia.
    destruct Hn as [(H1 & H2 & H3)|[(H1 & H2 & H3)|(H1 & H2 & H3)]].
    - exists (lit "task"). unfold tag_name. lit_lengths. auto.
    - exists (lit "environment_details"). unfold tag_name. lit_lengths. auto 6.
    - exists (lit "thinking"). unfold tag_name. lit_lengths. auto 6. }
  destruct HT as (T & HT & HsT & -> & ->).
  cbn [get_cap set_cap Nat.eqb] in Hbr.
  lit_lengths. replace (i + 1) with (S i) in * by lia.
  destruct Hbr as (Hs6 & -> & ->).
  rewrite HsT in *.
  exists T, (S i + length T + 1), m4.
  repeat split; try lia; try assumption.
  rewrite (substring_split s m4 (m4 + 2) _) by lia.
  rewrite (substring_split s (m4 + 2) (m4 + 2 + length T) _) by lia.
  now rewrite Hs5, Hs6, Hs7.
Qed.

Lemma fencedBlock_den s marker n i e c :
  e <= length s ->
  den s (fencedBlock marker n) i [] e c ->
  exists a b ws,
    c = [(n, (a, b))]
    /\ i + length marker + 4 <= a /\ a <= b /\ e = b + length ws + 3
    /\ substring s i (i + length marker) = marker
    /\ substring s (a - 1) a = [nl]
    /\ substring s b e = ws ++ fence
    /\ forallb is_space ws = true.
Proof.
  unfold fencedBlock. cbn [den].
  intros He (m1 & c1 & Hb1 & (Hs1 & -> & ->) & m2 & c2 & Hb2 & (Hs2 & ->)
          & m3 & c3 & Hb3 & (Hs3 & -> & ->) & m4 & c4 & Hb4 & Hopt
          & m5 & c5 & Hb5 & (Hs5 & ->) & m6 & c6 & Hb6 & (Hs6 & -> & ->)
          & m7 & c7 & Hb7 & (c6' & (Hs7 & ->) & ->)
          & m8 & c8 & Hb8 & (Hs8 & ->) & (Hs9 & -> & ->)).
  assert (Hc4 : c4 = []).
  { destruct Hopt as [(m & cm & _ & (_ & _ & ->) & (_ & ->))|[_ ->]];
      reflexivity. }
  subst c4. unfold fence in *. cbn [length] in *. lit_lengths.
  exists (m5 + 1), m7, (substring s m7 m8).
  assert (Hl : length (substring s m7 m8) = m8 - m7)
    by (apply substring_length; lia).
  repeat split; try lia; try assumption.
  - now replace (m5 + 1 - 1) with m5 by lia.
  - rewrite (substring_split s m7 m8 _) by lia. now rewrite Hs9.
Qed.

Lemma blockRegex_den s m :
  den s blockRegex (m_index m) [] (m_end m) (m_caps m) ->
  m_end m <= length s ->
  block_shape s m /\ m_index m < m_end m.
Proof.
  destruct m as [i e c]. cbn [m_index m_end m_caps].
  unfold blockRegex. cbn [den]. intros [H|[H|H]] He.
  - apply tagBlock_den in H
      as (T & a & b & HT & -> & -> & Hab & -> & H1 & H2 & H3 & H4).
    split; [|lia].
    apply TagShape with (T := T) (X := substring s (S (S i + length T)) b).
    + assumption.
    + unfold group. cbn [m_caps get_cap Nat.eqb]. now rewrite H2.
    + reflexivity.
    + unfold full_match. cbn [m_index m_end].
      rewrite (substring_split s i (S i) _) by lia.
      rewrite (substring_split s (S i) (S i + length T) _) by lia.
      rewrite (substring_split s (S i + length T) (S (S i + length T)) _)
        by lia.
      rewrite (substring_split s (S (S i + length T)) b _) by lia.
      now rewrite H1, H2, H3, H4.
  - apply fencedBlock_den in H; [|assumption].
    destruct H
      as (a & b & ws & -> & H1 & H2 & H3 & H4 & H5 & H6 & H7).
    split; [|lia].
    apply FenceShape with (marker := lit "tool_code") (n := 3) (a := a)
                          (b := b) (ws := ws); auto.
  - apply fencedBlock_den in H; [|assumption].
    destruct H
      as (a & b & ws & -> & H1 & H2 & H3 & H4 & H5 & H6 & H7).
    split; [|lia].
    apply FenceShape with (marker := lit "tool_result") (n := 4) (a := a)
                          (b := b) (ws := ws); auto.
Qed.

Lemma exec_blockRegex s lastIndex m :
  exec s blockRegex lastIndex = Some m ->
  lastIndex <= m_index m /\ m_index m < m_end m /\ m_end m <= length s
  /\ block_shape s m.
Proof.
  intros H. apply exec_sound in H as (H1 & H2 & H3).
  destruct (blockRegex_den s m H3 (proj2 H2)) as (H4 & H5).
  repeat split; try lia; assumption.
Qed.

(** ** Recognized blocks and the segments of a response *)

Lemma tag_name_cases T :
  tag_name T ->
  truthy (Some T) = true
  /\ (is_tag (Some T) "task" || is_tag (Some T) "environment_details"
      || is_tag (Some T) "thinking") = true.
Proof.
  intros [-> | [-> | ->]]; split; reflexivity.
Qed.

Lemma group_cap s m n T :
  group s m n = Some T ->
  exists a b, get_cap n (m_caps m) = Some (a, b) /\ substring s a b = T.
Proof.
  unfold group. destruct (get_cap n (m_caps m)) as [[a b]|]; [|discriminate].
  intros H. injection H as <-. now exists a, b.
Qed.

(** A recognized block yields exactly one chunk, the one of its segment,
    and its segment spells the matched text. *)
Lemma yield_block_shape s m :
  block_shape s m ->
  yield_block s m = (segment_chunks (block_segment s m), Done tt)
  /\ segment_source (block_segment s m) = full_match s m
  /\ length (segment_chunks (block_segment s m)) = 1.
Proof.
  intros [T X HT H1 H2 Hf|marker n a b ws Hn Hc Ha Hab He Hm Hnl Hcl Hws].
  - unfold yield_block. rewrite H1, H2.
    destruct (tag_name_cases T HT) as (-> & ->).
    apply group_cap in H1 as (a1 & b1 & Hc1 & Hs1).
    apply group_cap in H2 as (a2 & b2 & Hc2 & Hs2).
    unfold block_segment. rewrite Hc1, Hc2, Hs1, Hs2. cbn [segment_chunks segment_source].
    repeat split. now rewrite Hf.
  - assert (Hfull : substring s (m_index m) a ++ substring s a b
                    ++ substring s b (m_end m) = full_match s m).
    { unfold full_match.
      rewrite (substring_split s (m_index m) a (m_end m)) by lia.
      now rewrite (substring_split s a b (m_end m)) by lia. }
    unfold yield_block, block_segment, group. rewrite Hc.
    destruct Hn as [[-> ->] | [-> ->]]; cbn [get_cap Nat.eqb truthy];
      cbn [segment_chunks segment_source]; rewrite Hfull; repeat split.
Qed.

Lemma bind_done {A B} cs (a : A) (f : A -> gen B) :
  bind (cs, Done a) f = (cs ++ fst (f a), snd (f a)).
Proof. unfold bind. now destruct (f a). Qed.

Lemma when_yield b c :
  when b (yield c) = ((if b then [c] else []), Done tt).
Proof. now destruct b. Qed.

Lemma plain_gap s a b :
  a <= b -> b <= length s ->
  segment_chunks (Plain (substring s a b))
  = if a <? b then [Text (substring s a b)] else [].
Proof.
  intros Hab Hb. destruct (a <? b) eqn:Hlt.
  - apply Nat.ltb_lt in Hlt.
    pose proof (substring_length s a b Hab Hb) as Hl.
    destruct (substring s a b); [simpl in Hl; lia | reflexivity].
  - apply Nat.ltb_ge in Hlt. replace b with a by lia.
    now rewrite substring_same.
Qed.

Lemma plain_tail s a :
  a <= length s ->
  segment_chunks (Plain (substring_from s a))
  = if a <? length s then [Text (substring_from s a)] else [].
Proof.
  intros Ha. unfold substring_from. rewrite <- substring_to_end.
  now apply plain_gap.
Qed.

(** The loop emits, segment by segment, the chunks of the response cut at
    its recognized blocks, and returns normally. *)
Lemma parseLoop_segments s : forall fuel lastIndex,
  lastIndex <= length s -> length s - lastIndex < fuel ->
  parseLoop fuel s lastIndex
  = (flat_map segment_chunks
              (segments_from s lastIndex (matchesFrom fuel s lastIndex)),
     Done tt).
Proof.
  induction fuel as [|fuel IH]; intros li Hli Hfuel; [lia|].
  cbn [parseLoop matchesFrom].
  destruct (exec s blockRegex li) as [m|] eqn:He.
  - destruct (exec_blockRegex s li m He) as (H1 & H2 & H3 & Hshape).
    destruct (yield_block_shape s m Hshape) as (Hy & _ & _).
    rewrite when_yield, Hy, IH by lia.
    rewrite !bind_done. cbn [fst snd segments_from flat_map].
    now rewrite plain_gap by lia.
  - rewrite when_yield. cbn [segments_from flat_map].
    rewrite plain_tail by lia. now rewrite app_nil_r.
Qed.

Lemma matchesFrom_fuel s : forall fuel fuel' lastIndex,
  lastIndex <= length s ->
  length s - lastIndex < fuel -> length s - lastIndex < fuel' ->
  matchesFrom fuel s lastIndex = matchesFrom fuel' s lastIndex.
Proof.
  induction fuel as [|fuel IH]; intros [|fuel'] li Hli H1 H2; try lia.
  cbn [matchesFrom].
  destruct (exec s blockRegex li) as [m|] eqn:He; [|reflexivity].
  destruct (exec_blockRegex s li m He) as (H3 & H4 & H5 & _).
  f_equal. apply IH; lia.
Qed.

Lemma matchesFrom_advances s : forall fuel lastIndex,
  cursor_advances s lastIndex (matchesFrom fuel s lastIndex).
Proof.
  induction fuel as [|fuel IH]; intros li; cbn [matchesFrom]; [exact I|].
  destruct (exec s blockRegex li) as [m|] eqn:He; [|exact I].
  destruct (exec_blockRegex s li m He) as (H3 & H4 & H5 & _).
  cbn [cursor_advances]. repeat split; try lia. apply IH.
Qed.

Lemma matchesFrom_shape s : forall fuel lastIndex,
  Forall (block_shape s) (matchesFrom fuel s lastIndex).
Proof.
  induction fuel as [|fuel IH]; intros li; cbn [matchesFrom];
    [constructor|].
  destruct (exec s blockRegex li) as [m|] eqn:He; [|constructor].
  destruct (exec_blockRegex s li m He) as (_ & _ & _ & Hs).
  constructor; [assumption | apply IH].
Qed.

Lemma segments_from_source s : forall ms lastIndex,
  lastIndex <= length s ->
  cursor_advances s lastIndex ms -> Forall (block_shape s) ms ->
  source_text (segments_from s lastIndex ms) = substring_from s lastIndex.
Proof.
  unfold source_text, substring_from.
  induction ms as [|m ms IH]; intros li Hli Hadv Hsh;
    cbn [segments_from map concat segment_source].
  - apply app_nil_r.
  - destruct Hadv as (H1 & H2 & H3 & H4 & Hadv).
    inversion Hsh as [|? ? Hm Hms]; subst.
    destruct (yield_block_shape s m Hm) as (_ & -> & _).
    rewrite IH by assumption. unfold full_match.
    rewrite <- !substring_to_end.
    rewrite (substring_split s li (m_index m) (length s)) by lia.
    now rewrite (substring_split s (m_index m) (m_end m) (length s)) by lia.
Qed.

Lemma segments_from_count s : forall ms lastIndex,
  Forall (block_shape s) ms ->
  length (flat_map segment_chunks (segments_from s lastIndex ms))
  <= 2 * length ms + 1.
Proof.
  assert (Hp : forall t, length (segment_chunks (Plain t)) <= 1)
    by (intros [|x t]; simpl; lia).
  induction ms as [|m ms IH]; intros li Hsh;
    cbn [segments_from flat_map length].
  - rewrite app_nil_r. apply Hp.
  - inversion Hsh as [|? ? Hm Hms]; subst.
    destruct (yield_block_shape s m Hm) as (_ & _ & Hone).
    rewrite !length_app, Hone.
    specialize (IH (m_end m) Hms).
    specialize (Hp (substring s li (m_index m))). lia.
Qed.

(** ** [parseClarifaiOutput] in terms of segments *)

Lemma parse_segments s :
  parseClarifaiOutput s = (flat_map segment_chunks (segments s), Done tt).
Proof.
  unfold parseClarifaiOutput, segments, recognized.
  apply parseLoop_segments; lia.
Qed.

Lemma segments_source s : source_text (segments s) = s.
Proof.
  unfold segments, recognized.
  rewrite segments_from_source.
  - reflexivity.
  - lia.
  - apply matchesFrom_advances.
  - apply matchesFrom_shape.
Qed.

(** ** A response that is one tag block *)

Lemma starts_with_refl t u : starts_with t (t ++ u) = true.
Proof. apply starts_with_app. now exists u. Qed.

Lemma starts_with_self t : starts_with t t = true.
Proof. apply starts_with_app. exists []. now rewrite app_nil_r. Qed.

Lemma starts_with_concat t1 t2 : forall r,
  starts_with (t1 ++ t2) r
  = starts_with t1 r && starts_with t2 (skipn (length t1) r).
Proof.
  induction t1 as [|x t1 IH]; intros [|y r]; cbn [app starts_with length skipn];
    try reflexivity.
  rewrite IH. apply andb_assoc.
Qed.

Lemma run_Str input t k i u c :
  run input (Str t) k i (t ++ u) c = k (i + length t) u c.
Proof.
  cbn [run]. rewrite starts_with_refl.
  now rewrite skipn_app, skipn_all, Nat.sub_diag.
Qed.

Lemma run_Seq input r1 r2 k i rest c :
  run input (r1 +> r2)%re k i rest c
  = run input r1 (fun i' rest' c' => run input r2 k i' rest' c') i rest c.
Proof. reflexivity. Qed.

Lemma run_Group input n r1 k i rest c :
  run input (Group n r1) k i rest c
  = run input r1 (fun i' rest' c' => k i' rest' (set_cap n (i, i') c'))
        i rest c.
Proof. reflexivity. Qed.

Lemma run_Star_lazy input p k i rest c :
  run input (Star false p) k i rest c = star_lazy p k i rest c.
Proof. reflexivity. Qed.

Lemma star_lazy_now p (k : cont) i rest c r :
  k i rest c = Some r -> star_lazy p k i rest c = Some r.
Proof. intros H. destruct rest; cbn [star_lazy]; now rewrite H. Qed.

Lemma run_Str_fail input t k i rest c :
  starts_with t rest = false -> run input (Str t) k i rest c = None.
Proof. intros H. cbn [run]. now rewrite H. Qed.

(** The closing delimiter [</\1>] read by the pattern after group 1 has
    captured [T]. *)
Lemma run_closing input T i rest c p q :
  get_cap 1 c = Some (p, q) -> substring input p q = T ->
  run input (Str (lit "</") +> Backref 1 +> Str (lit ">"))%re accept i rest c
  = if starts_with (lit "</" ++ T ++ lit ">") rest
    then Some (i + 2 + length T + 1, c) else None.
Proof.
  intros Hc HT. cbn [run]. rewrite Hc, HT.
  rewrite !starts_with_concat. lit_lengths.
  destruct (starts_with (lit "</") rest); [|reflexivity].
  destruct (starts_with T (skipn 2 rest)); [|reflexivity].
  destruct (starts_with (lit ">") (skipn (length T) (skipn 2 rest)));
    reflexivity.
Qed.

Lemma star_lazy_skip p (k : cont) c : forall X rest i,
  forallb p X = true ->
  (forall j, j < length X -> k (i + j) (skipn j (X ++ rest)) c = None) ->
  star_lazy p k i (X ++ rest) c = star_lazy p k (i + length X) rest c.
Proof.
  induction X as [|x X IH]; intros rest i Hp Hk.
  - cbn [app length]. now rewrite Nat.add_0_r.
  - cbn [app star_lazy]. cbn [forallb] in Hp.
    apply andb_true_iff in Hp as [Hx Hp].
    pose proof (Hk 0 ltac:(cbn [length]; lia)) as H0.
    rewrite Nat.add_0_r in H0. cbn [skipn app] in H0. rewrite H0, Hx.
    rewrite IH; [|assumption|].
    + cbn [length]. f_equal. lia.
    + intros j Hj. specialize (Hk (S j) ltac:(cbn [length]; lia)).
      cbn [skipn app] in Hk. now replace (S i + j) with (i + S j) by lia.
Qed.

Lemma forallb_is_any X : forallb is_any X = true.
Proof. induction X; [reflexivity | assumption]. Qed.

(** A literal that has its first character nowhere else cannot start
    inside [X] and run over into a following copy of itself. *)
Lemma starts_with_before x t : forall X u,
  forallb (fun c => negb (char_eqb c x)) t = true ->
  starts_with t (X ++ x :: u) = starts_with t X.
Proof.
  induction t as [|c t IH]; intros X u Ht; [reflexivity|].
  cbn [forallb] in Ht. apply andb_true_iff in Ht as [Hc Ht].
  destruct X as [|y X]; cbn [app starts_with].
  - apply negb_true_iff in Hc. now rewrite Hc.
  - now rewrite IH.
Qed.

Lemma includes_skipn t : forall X j,
  includes X t = false -> starts_with t (skipn j X) = false.
Proof.
  induction X as [|x X IH]; intros j H; cbn [includes] in H;
    apply orb_false_iff in H as [H1 H2].
  - now rewrite skipn_nil.
  - destruct j as [|j]; [exact H1 | now apply IH].
Qed.

Lemma closing_first x t X :
  forallb (fun c => negb (char_eqb c x)) t = true ->
  includes X (x :: t) = false ->
  forall j, j < length X ->
            starts_with (x :: t) (skipn j (X ++ x :: t)) = false.
Proof.
  intros Ht HX j Hj.
  rewrite skipn_app. replace (j - length X) with 0 by lia. cbn [skipn].
  pose proof (includes_skipn (x :: t) X j HX) as Hs.
  destruct (skipn j X) as [|y Y] eqn:HY.
  - apply (f_equal (@length char)) in HY. rewrite length_skipn in HY.
    simpl in HY. lia.
  - cbn [app starts_with]. cbn [starts_with] in Hs.
    now rewrite starts_with_before.
Qed.

Lemma run_single_block input T X :
  tag_name T -> substring input 1 (1 + length T) = T ->
  includes X (lit "</" ++ T ++ lit ">") = false ->
  run input blockRegex accept 0
      (lit "<" ++ T ++ lit ">" ++ X ++ lit "</" ++ T ++ lit ">") []
  = Some (2 + length T + length X + 2 + length T + 1,
          [(2, (2 + length T, 2 + length T + length X));
           (1, (1, 1 + length T))]).
Proof.
  intros HT Hin HX.
  assert (Hnames : forall (k : cont) u,
             run input tagNames k 1 (T ++ u) [] = k (1 + length T) u []).
  { intros k u. unfold tagNames. cbn [run].
    destruct HT as [-> | [-> | ->]].
    - rewrite starts_with_refl, skipn_app, skipn_all, Nat.sub_diag.
      replace (starts_with (lit "environment_details") (lit "task" ++ u))
        with false by reflexivity.
      replace (starts_with (lit "thinking") (lit "task" ++ u))
        with false by reflexivity.
      now destruct (k _ _ _).
    - replace (starts_with (lit "task") (lit "environment_details" ++ u))
        with false by reflexivity.
      rewrite starts_with_refl, skipn_app, skipn_all, Nat.sub_diag.
      replace (starts_with (lit "thinking") (lit "environment_details" ++ u))
        with false by reflexivity.
      now destruct (k _ _ _).
    - replace (starts_with (lit "task") (lit "thinking" ++ u))
        with false by reflexivity.
      replace (starts_with (lit "environment_details") (lit "thinking" ++ u))
        with false by reflexivity.
      now rewrite starts_with_refl, skipn_app, skipn_all, Nat.sub_diag. }
  assert (Htag : run input tagBlock accept 0
            (lit "<" ++ T ++ lit ">" ++ X ++ lit "</" ++ T ++ lit ">") []
          = Some (2 + length T + length X + 2 + length T + 1,
                  [(2, (2 + length T, 2 + length T + length X));
                   (1, (1, 1 + length T))])).
  { unfold tagBlock.
    rewrite run_Seq, run_Str. cbv beta.
    rewrite run_Seq, run_Group, Hnames. cbv beta.
    rewrite run_Seq, run_Str. cbv beta.
    rewrite run_Seq, run_Group, run_Star_lazy. lit_lengths.
    rewrite star_lazy_skip.
    - erewrite star_lazy_now; [reflexivity|]. cbv beta.
      erewrite run_closing; [|reflexivity|exact Hin].
      rewrite starts_with_self. unfold set_cap.
      now replace (1 + length T + 1) with (2 + length T) by lia.
    - apply forallb_is_any.
    - intros j Hj. cbv beta.
      erewrite run_closing; [|reflexivity|exact Hin].
      change (lit "</" ++ T ++ lit ">") with (lt_char :: lit "/" ++ T ++ lit ">").
      rewrite closing_first; try assumption; try reflexivity.
      destruct HT as [-> | [-> | ->]]; reflexivity. }
  unfold blockRegex.
  change (run input (?a <|> ?b)%re accept 0 ?r [])
    with (match run input a accept 0 r [] with
          | Some x => Some x
          | None => run input b accept 0 r []
          end).
  now rewrite Htag.
Qed.

Lemma search_hit input r i rest e c :
  run input r accept i rest [] = Some (e, c) ->
  search input r i rest = Some (mkMatch i e c).
Proof. intros H. destruct rest; cbn [search]; now rewrite H. Qed.

Lemma exec_at_end s : exec s blockRegex (length s) = None.
Proof.
  unfold exec. rewrite Nat.leb_refl, skipn_all. reflexivity.
Qed.

Lemma firstn_app_exact (t u : str) : firstn (length t) (t ++ u) = t.
Proof.
  induction t as [|x t IH]; cbn [length app firstn].
  - now destruct u.
  - now rewrite IH.
Qed.

Lemma substring_middle (p t u : str) :
  substring (p ++ t ++ u) (length p) (length p + length t) = t.
Proof.
  rewrite substring_le by lia.
  rewrite skipn_app, skipn_all, Nat.sub_diag. cbn [skipn app].
  replace (length p + length t - length p) with (length t) by lia.
  apply firstn_app_exact.
Qed.

(** A response that is exactly one tag block whose content does not
    contain the closing tag. *)
Lemma parse_single_block T X :
  tag_name T ->
  includes X (lit "</" ++ T ++ lit ">") = false ->
  parseClarifaiOutput
    (lit "<" ++ T ++ lit ">" ++ X ++ lit "</" ++ T ++ lit ">")
  = ([Reasoning (trim X)], Done tt).
Proof.
  intros HT HX.
  set (s := lit "<" ++ T ++ lit ">" ++ X ++ lit "</" ++ T ++ lit ">").
  assert (Hlen : length s = 2 + length T + length X + 2 + length T + 1).
  { unfold s. rewrite !length_app. lit_lengths. lia. }
  assert (H1 : substring s 1 (1 + length T) = T)
    by exact (substring_middle (lit "<") T _).
  assert (H2 : substring s (2 + length T) (2 + length T + length X) = X).
  { unfold s.
    replace (lit "<" ++ T ++ lit ">" ++ X ++ lit "</" ++ T ++ lit ">")
      with ((lit "<" ++ T ++ lit ">") ++ X ++ lit "</" ++ T ++ lit ">")
      by now rewrite <- !app_assoc.
    replace (2 + length T) with (length (lit "<" ++ T ++ lit ">"))
      by (rewrite !length_app; lit_lengths; lia).
    apply substring_middle. }
  assert (He : exec s blockRegex 0
               = Some (mkMatch 0 (length s)
                               [(2, (2 + length T, 2 + length T + length X));
                                (1, (1, 1 + length T))])).
  { unfold exec. cbn [Nat.leb skipn]. rewrite Hlen.
    apply search_hit. now apply run_single_block. }
  unfold parseClarifaiOutput. rewrite Hlen at 1.
  cbn [parseLoop Nat.add]. rewrite He. cbn [m_index m_end].
  rewrite exec_at_end, !Nat.ltb_irrefl.
  unfold yield_block, group. cbn [m_caps get_cap Nat.eqb].
  rewrite H1, H2.
  destruct (tag_name_cases T HT) as (-> & ->).
  reflexivity.
Qed.

(** ** Reconstruction of the response from the chunks *)

Lemma concat_values_app cs cs' :
  concat_values (cs ++ cs') = concat_values cs ++ concat_values cs'.
Proof. unfold concat_values. now rewrite map_app, concat_app. Qed.

Lemma segment_chunks_values g :
  concat_values (segment_chunks g) = emitted_text g.
Proof.
  destruct g as [[|x t]|T X|o b c]; cbn; try reflexivity;
    now rewrite app_nil_r.
Qed.

Lemma chunks_values gs :
  concat_values (flat_map segment_chunks gs) = concat (map emitted_text gs).
Proof.
  induction gs as [|g gs IH]; [reflexivity|].
  cbn [flat_map map concat].
  now rewrite concat_values_app, segment_chunks_values, IH.
Qed.

Lemma block_segment_well_formed s m :
  block_shape s m -> segment_well_formed (block_segment s m).
Proof.
  intros [T X HT H1 H2 Hf|marker n a b ws Hn Hc Ha Hab He Hm Hnl Hcl Hws].
  - apply group_cap in H1 as (a1 & b1 & Hc1 & Hs1).
    apply group_cap in H2 as (a2 & b2 & Hc2 & Hs2).
    unfold block_segment. rewrite Hc1, Hc2, Hs1. exact HT.
  - assert (Ho : substring s (m_index m) a
                 = marker
                     ++ substring s (m_index m + length marker) (a - 1)
                     ++ [nl]).
    { rewrite (substring_split s (m_index m) (m_index m + length marker) a)
        by lia.
      rewrite (substring_split s (m_index m + length marker) (a - 1) a)
        by lia.
      now rewrite Hm, Hnl. }
    unfold block_segment. rewrite Hc.
    destruct Hn as [[-> ->] | [-> ->]]; cbn [get_cap Nat.eqb segment_well_formed];
      (split; [eexists; rewrite Ho; eauto | now exists ws]).
Qed.

Lemma segments_from_well_formed s : forall ms lastIndex,
  Forall (block_shape s) ms ->
  Forall segment_well_formed (segments_from s lastIndex ms).
Proof.
  induction ms as [|m ms IH]; intros li Hsh; cbn [segments_from].
  - repeat constructor.
  - inversion Hsh as [|? ? Hm Hms]; subst.
    constructor; [exact I|].
    constructor; [now apply block_segment_well_formed | now apply IH].
Qed.

Lemma segments_well_formed s : Forall segment_well_formed (segments s).
Proof. apply segments_from_well_formed, matchesFrom_shape. Qed.

Lemma recognized_none s :
  recognized s = [] -> exec s blockRegex 0 = None.
Proof.
  unfold recognized. cbn [matchesFrom].
  now destruct (exec s blockRegex 0).
Qed.

(** * The claims about the tokenizer *)

(** C1, as stated, fails: the value of a reasoning chunk is the trimmed
    content of its tag block, so white space next to the delimiters is lost
    ([<thinking> a </thinking>] gives [a], not [ a ]), and a fenced block is
    emitted with its delimiters, which are therefore not removed. *)
Lemma reconstruction_delimiters_only_fails :
  concat_values (yielded (parseClarifaiOutput (lit "<thinking> a </thinking>")))
  <> delimiters_removed (lit "<thinking> a </thinking>")
  /\ concat_values
       (yielded (parseClarifaiOutput (lit "tool_code```" ++ [nl] ++ lit "x```")))
     <> delimiters_removed (lit "tool_code```" ++ [nl] ++ lit "x```").
Proof. split; vm_compute; discriminate. Qed.

(** C1, amended: for every raw response, the response is the concatenation
    of its segments (plain text, tag blocks, fenced blocks), the tokenizer
    returns normally, and the concatenation of the chunk values in emission
    order is the response in which every recognized tag block is replaced by
    its inner content trimmed of leading and trailing white space; plain
    text and fenced blocks, delimiters included, are kept verbatim. *)
Theorem reconstruction_of_emitted_text (s : str) :
  source_text (segments s) = s
  /\ finished (parseClarifaiOutput s) = Done tt
  /\ concat_values (yielded (parseClarifaiOutput s))
     = concat (map emitted_text (segments s)).
Proof.
  rewrite parse_segments. cbn [yielded finished fst snd].
  repeat split.
  - apply segments_source.
  - apply chunks_values.
Qed.

(** C4: the chunks of a response are those of its segments, in order: a
    tag block named task, environment_details or thinking gives exactly one
    reasoning chunk whose value is its trimmed inner content, a tool_code or
    tool_result fenced block gives exactly one text chunk whose value is the
    whole matched block; and a response that is exactly one
    [<thinking>X</thinking>] block ([X] without the closing tag) gives the
    single reasoning chunk [X.trim()]. *)
Theorem blocks_emitted_one_chunk_each :
  (forall s,
      source_text (segments s) = s
      /\ Forall segment_well_formed (segments s)
      /\ parseClarifaiOutput s
         = (flat_map segment_chunks (segments s), Done tt)
      /\ (forall T X, segment_chunks (TagBlock T X) = [Reasoning (trim X)])
      /\ (forall o b c, segment_chunks (FencedBlock o b c)
                        = [Text (segment_source (FencedBlock o b c))]))
  /\ (forall X,
         includes X (lit "</thinking>") = false ->
         parseClarifaiOutput (lit "<thinking>" ++ X ++ lit "</thinking>")
         = ([Reasoning (trim X)], Done tt)).
Proof.
  split.
  - intros s. repeat split.
    + apply segments_source.
    + apply segments_well_formed.
    + apply parse_segments.
  - intros X HX.
    change (lit "<thinking>" ++ X ++ lit "</thinking>")
      with (lit "<" ++ lit "thinking" ++ lit ">" ++ X
              ++ lit "</" ++ lit "thinking" ++ lit ">").
    apply parse_single_block.
    + right. now right.
    + exact HX.
Qed.

Lemma blocks_emitted_one_chunk_each_witness :
  includes (lit "  ponder ") (lit "</thinking>") = false
  /\ parseClarifaiOutput (lit "<thinking>" ++ lit "  ponder " ++ lit "</thinking>")
     = ([Reasoning (lit "ponder")], Done tt).
Proof.
  split.
  - reflexivity.
  - apply (proj2 blocks_emitted_one_chunk_each (lit "  ponder ")).
    reflexivity.
Defined.

(** C9: a non-empty response in which no block is recognized gives exactly
    one text chunk, the whole input; the empty response gives no chunk. *)
Theorem plain_response_one_text_chunk :
  (forall s, 0 < length s -> recognized s = [] ->
             parseClarifaiOutput s = ([Text s], Done tt))
  /\ parseClarifaiOutput [] = ([], Done tt).
Proof.
  split; [|reflexivity].
  intros s Hs Hnone. apply recognized_none in Hnone.
  unfold parseClarifaiOutput. cbn [parseLoop]. rewrite Hnone.
  apply Nat.ltb_lt in Hs. now rewrite Hs.
Qed.

Lemma plain_response_one_text_chunk_witness :
  parseClarifaiOutput (lit "plain <b>text</b> tool_code")
  = ([Text (lit "plain <b>text</b> tool_code")], Done tt).
Proof.
  apply (proj1 plain_response_one_text_chunk).
  - vm_compute. lia.
  - vm_compute. reflexivity.
Defined.

(** C10: the scan terminates (the loop needs at most [length s + 1]
    iterations, more fuel changes nothing, and it returns normally), the
    cursor [lastIndex] strictly increases over the accepted matches, each of
    which is non-empty, and at most [2 * blocks + 1] chunks are emitted. *)
Theorem scan_terminates_and_bounds (s : str) :
  (forall extra,
      parseLoop (S (length s) + extra) s 0 = parseClarifaiOutput s
      /\ matchesFrom (S (length s) + extra) s 0 = recognized s)
  /\ finished (parseClarifaiOutput s) = Done tt
  /\ cursor_advances s 0 (recognized s)
  /\ length (yielded (parseClarifaiOutput s)) <= 2 * length (recognized s) + 1.
Proof.
  repeat split.
  - unfold parseClarifaiOutput.
    rewrite !parseLoop_segments by lia.
    now rewrite (matchesFrom_fuel s (S (length s) + extra) (S (length s)))
      by lia.
  - apply matchesFrom_fuel; lia.
  - now rewrite parse_segments.
  - apply matchesFrom_advances.
  - rewrite parse_segments. cbn [yielded fst].
    apply segments_from_count, matchesFrom_shape.
Qed.

(** * The claims about [stream] *)

Lemma absent_truthy v : absent v -> truthy v = false.
Proof. now intros [-> | ->]. Qed.

Lemma truthy_some v : truthy v = true -> exists x s, v = Some (x :: s).
Proof.
  destruct v as [[|x s]|]; try discriminate. intros _. now exists x, s.
Qed.

Lemma join_intersperse sep parts :
  join sep parts = concat (intersperse sep parts).
Proof.
  induction parts as [|x [|y parts] IH]; cbn [join intersperse concat].
  - reflexivity.
  - now rewrite app_nil_r.
  - cbn [join intersperse concat] in IH. now rewrite IH.
Qed.

Lemma content_text_spec c : content_text c = message_text_spec c.
Proof.
  destruct c as [s|items]; [reflexivity|].
  cbn [content_text message_text_spec]. apply join_intersperse.
Qed.

Lemma append_message_spec acc m :
  append_message acc m = acc ++ paragraph_spec m.
Proof.
  unfold append_message, paragraph_spec. rewrite content_text_spec.
  destruct (msg_role m); now rewrite ?app_nil_r, <- ?app_assoc.
Qed.

Lemma fold_append_messages msgs : forall acc,
  fold_left append_message msgs acc = acc ++ concat (map paragraph_spec msgs).
Proof.
  induction msgs as [|m msgs IH]; intros acc; cbn [fold_left map concat].
  - now rewrite app_nil_r.
  - now rewrite IH, append_message_spec, <- app_assoc.
Qed.

Lemma buildInputText_spec systemPrompt messages :
  buildInputText systemPrompt messages = flatten_spec systemPrompt messages.
Proof.
  unfold buildInputText, flatten_spec. rewrite fold_append_messages.
  now destruct systemPrompt.
Qed.

(** Every request [stream] makes carries the flattened text, and at most
    one request is made. *)
Lemma stream_requests options post systemPrompt messages req :
  In req (requests (stream options post systemPrompt messages)) ->
  requests (stream options post systemPrompt messages) = [req]
  /\ req_raw req = buildInputText systemPrompt messages
  /\ produced (stream options post systemPrompt messages)
     = try_catch (match post req with
                  | Resolved r => on_response r
                  | Rejected e => throw e
                  end) on_error.
Proof.
  unfold stream.
  destruct (negb (truthy (clarifaiPat options))); [intros []|].
  destruct (negb (truthy (apiModelId options))); [intros []|].
  match goal with
  | |- context [if ?b then _ else _] => destruct b; [intros []|]
  end.
  cbn [requests produced In]. intros [<-|[]]. repeat split.
Qed.

Lemma collect_no_text os : forall acc,
  Forall (fun o => truthy (out_raw o) = false) os ->
  fold_left append_output os acc = acc.
Proof.
  induction os as [|o os IH]; intros acc H; [reflexivity|].
  inversion H as [|? ? Ho Hos]; subst. cbn [fold_left].
  rewrite IH by assumption. unfold append_output.
  now destruct (out_raw o) as [[|x t]|].
Qed.

(** C2, as stated, fails: every output text is followed by a newline
    before the tokenizer sees it, so the last chunk is [" world\n"]. *)
Lemma hello_envelope_last_chunk_differs :
  produced (stream sampleOptions
                   (fun _ => Resolved (mkResponse 200 (Some helloEnvelope)))
                   (lit "hi") [mkMessage User (ContentString (lit "hello"))])
  <> ([Text (lit "Hello "); Reasoning (lit "ponder"); Text (lit " world")],
      Done tt).
Proof. vm_compute. discriminate. Qed.

(** C2, amended: when the request of a call is answered with status 200
    and the envelope whose single output has the raw text
    [Hello <thinking>ponder</thinking> world], the call yields exactly the
    chunks text ["Hello "], reasoning ["ponder"], text [" world\n"], in
    that order, and returns normally. *)
Theorem hello_envelope_chunks options post systemPrompt messages req :
  In req (requests (stream options post systemPrompt messages)) ->
  post req = Resolved (mkResponse 200 (Some helloEnvelope)) ->
  produced (stream options post systemPrompt messages)
  = ([Text (lit "Hello "); Reasoning (lit "ponder");
      Text (lit " world" ++ [nl])],
     Done tt).
Proof.
  intros Hreq Hpost.
  destruct (stream_requests _ _ _ _ _ Hreq) as (_ & _ & ->).
  rewrite Hpost. vm_compute. reflexivity.
Qed.

Lemma hello_envelope_chunks_witness :
  produced (stream sampleOptions
                   (fun _ => Resolved (mkResponse 200 (Some helloEnvelope)))
                   (lit "hi") [mkMessage User (ContentString (lit "hello"))])
  = ([Text (lit "Hello "); Reasoning (lit "ponder");
      Text (lit " world" ++ [nl])],
     Done tt).
Proof.
  apply (hello_envelope_chunks
           sampleOptions
           (fun _ => Resolved (mkResponse 200 (Some helloEnvelope)))
           (lit "hi") [mkMessage User (ContentString (lit "hello"))]
           (mkRequest
              (lit "https://api.clarifai.com/v2/users/user/apps/app/models/name/outputs")
              (lit "Key key")
              (lit "System: hi" ++ [nl; nl] ++ lit "User: hello" ++ [nl; nl]))).
  - vm_compute. left. reflexivity.
  - reflexivity.
Defined.

(** C3, as stated, fails: a 200 response whose [outputs] array is empty
    does not pass the guard [outputs?.length > 0]; the call throws. *)
Lemma empty_outputs_raise :
  produced (stream sampleOptions
                   (fun _ => Resolved
                               (mkResponse 200
                                  (Some (mkEnvelope (Some []) None None))))
                   (lit "hi") [])
  = ([], Threw (Error (MsgStreamError
                         (MsgApiError (CodeNum 200) (lit "Unknown error")))))
  /\ produced (stream sampleOptions
                      (fun _ => Resolved
                                  (mkResponse 200
                                     (Some (mkEnvelope (Some []) None None))))
                      (lit "hi") [])
     <> ([], Done tt).
Proof. split; vm_compute; [reflexivity | discriminate]. Qed.

(** C3, amended: when the request is answered with status 200 and a
    non-empty [outputs] array none of whose entries has a non-empty text,
    the call returns normally without a chunk; when it is answered with
    status 200 and an empty or missing [outputs] array, the call yields no
    chunk and throws. *)
Theorem no_usable_text options post systemPrompt messages req r :
  In req (requests (stream options post systemPrompt messages)) ->
  post req = Resolved r ->
  status r = 200%N ->
  (forall os,
      env_outputs (data r) = Some os -> 0 < length os ->
      Forall (fun o => truthy (out_raw o) = false) os ->
      produced (stream options post systemPrompt messages) = ([], Done tt))
  /\ (env_outputs (data r) = None \/ env_outputs (data r) = Some [] ->
      exists m, produced (stream options post systemPrompt messages)
                = ([], Threw (Error m))).
Proof.
  intros Hreq Hpost Hst.
  destruct (stream_requests _ _ _ _ _ Hreq) as (_ & _ & ->).
  rewrite Hpost. unfold on_response, has_outputs, response_outputs.
  rewrite Hst. cbn [N.eqb Pos.eqb andb]. split.
  - intros os Hos Hlen Hno. rewrite Hos.
    apply Nat.ltb_lt in Hlen. rewrite Hlen.
    unfold collect_outputs. now rewrite collect_no_text.
  - intros [-> | ->]; cbn [length Nat.ltb Nat.leb];
      eexists; reflexivity.
Qed.

Lemma no_usable_text_witness :
  produced (stream sampleOptions
                   (fun _ => Resolved
                               (mkResponse 200
                                  (Some (mkEnvelope
                                           (Some [mkOutput None;
                                                  mkOutput (Some [])])
                                           None None))))
                   (lit "hi") [])
  = ([], Done tt).
Proof.
  refine (proj1 (no_usable_text
           sampleOptions
           (fun _ => Resolved
                       (mkResponse 200
                          (Some (mkEnvelope
                                   (Some [mkOutput None; mkOutput (Some [])])
                                   None None))))
           (lit "hi") []
           (mkRequest
              (lit "https://api.clarifai.com/v2/users/user/apps/app/models/name/outputs")
              (lit "Key key") (lit "System: hi" ++ [nl; nl]))
           _ _ _ _) [mkOutput None; mkOutput (Some [])] _ _ _).
  - vm_compute. left. reflexivity.
  - reflexivity.
  - reflexivity.
  - reflexivity.
  - vm_compute. lia.
  - repeat constructor.
Defined.

(** C6: when the access token is absent, or the model id is absent, or the
    model id does not split at [/] into exactly four segments the third of
    which is [models], [stream] throws a configuration error, yields no
    chunk and makes no network request. *)
Theorem bad_configuration_no_request options post systemPrompt messages :
  absent (clarifaiPat options)
  \/ absent (apiModelId options)
  \/ (exists modelId, apiModelId options = Some modelId
                      /\ well_shaped modelId = false) ->
  requests (stream options post systemPrompt messages) = []
  /\ exists m,
      produced (stream options post systemPrompt messages)
      = ([], Threw (Error m))
      /\ is_configuration_error m.
Proof.
  unfold stream, is_configuration_error.
  destruct (truthy (clarifaiPat options)) eqn:Hpat; cbn [negb].
  2:{ intros _. split; [reflexivity|]. eexists. split; [reflexivity|]. auto. }
  destruct (truthy (apiModelId options)) eqn:Hid; cbn [negb].
  2:{ intros _. split; [reflexivity|]. eexists. split; [reflexivity|]. auto. }
  intros [H | [H | (modelId & Hm & Hshape)]].
  - apply absent_truthy in H. congruence.
  - apply absent_truthy in H. congruence.
  - rewrite Hm in *. apply truthy_some in Hid as (x & t & Hxt).
    injection Hxt as ->. cbn [or_else nonempty].
    unfold well_shaped in Hshape. rewrite <- negb_andb, Hshape. cbn [negb].
    split; [reflexivity|]. eexists. split; [reflexivity|]. eauto.
Qed.

Lemma bad_configuration_no_request_witness :
  requests (stream (mkOptions (Some (lit "key")) (Some (lit "abc/def")) None)
                   (fun _ => Rejected Cancel) (lit "hi") [])
  = [].
Proof.
  refine (proj1 (bad_configuration_no_request
                   (mkOptions (Some (lit "key")) (Some (lit "abc/def")) None)
                   (fun _ => Rejected Cancel) (lit "hi") [] _)).
  right. right. exists (lit "abc/def"). split; reflexivity.
Defined.

(** C7: when the network request of a call ends because the caller's
    signal cancelled it, the call yields no chunk and returns normally. *)
Theorem cancellation_is_silent options post systemPrompt messages req :
  In req (requests (stream options post systemPrompt messages)) ->
  post req = Rejected Cancel ->
  produced (stream options post systemPrompt messages) = ([], Done tt).
Proof.
  intros Hreq Hpost.
  destruct (stream_requests _ _ _ _ _ Hreq) as (_ & _ & ->).
  now rewrite Hpost.
Qed.

Lemma cancellation_is_silent_witness :
  produced (stream sampleOptions (fun _ => Rejected Cancel) (lit "hi") [])
  = ([], Done tt).
Proof.
  apply (cancellation_is_silent
           sampleOptions (fun _ => Rejected Cancel) (lit "hi") []
           (mkRequest
              (lit "https://api.clarifai.com/v2/users/user/apps/app/models/name/outputs")
              (lit "Key key") (lit "System: hi" ++ [nl; nl]))).
  - vm_compute. left. reflexivity.
  - reflexivity.
Defined.

(** C8: the text [stream] sends is the flattening of the specification:
    [System: <prompt>\n\n] when the prompt is non-empty, then for each user
    or assistant message its label, its text (a string verbatim, the text
    parts of an array joined with a newline, other parts counting as the
    empty string) and two newlines; every request of a call carries it; and
    the prompt [hi] with the one user message [hello] flattens to
    [System: hi\n\nUser: hello\n\n]. *)
Theorem flattened_request_text :
  (forall systemPrompt messages,
      buildInputText systemPrompt messages
      = flatten_spec systemPrompt messages)
  /\ (forall options post systemPrompt messages,
         Forall (fun req => req_raw req = flatten_spec systemPrompt messages)
                (requests (stream options post systemPrompt messages)))
  /\ buildInputText (lit "hi") [mkMessage User (ContentString (lit "hello"))]
     = lit "System: hi" ++ [nl; nl] ++ lit "User: hello" ++ [nl; nl].
Proof.
  split; [exact buildInputText_spec|]. split; [|reflexivity].
  intros options post systemPrompt messages.
  apply Forall_forall. intros req Hreq.
  destruct (stream_requests _ _ _ _ _ Hreq) as (_ & -> & _).
  apply buildInputText_spec.
Qed.

(** * Further properties of the tokenizer *)

Lemma segment_chunks_text g t :
  segment_well_formed g -> In (Text t) (segment_chunks g) -> t <> [].
Proof.
  destruct g as [[|x u]|T X|o b c]; cbn [segment_chunks In segment_well_formed].
  - intros _ [].
  - intros _ [H|[]]. injection H as <-. discriminate.
  - intros _ [H|[]]. discriminate.
  - intros [[r Hr] _] [H|[]]. injection H as <-.
    destruct Hr as [-> | ->]; discriminate.
Qed.

(** X1: a text chunk is never empty: the text before a block is emitted
    only when the block starts after the cursor, the tail only when the
    cursor is before the end, and a fenced block starts with its marker. *)
Theorem text_chunks_nonempty (s t : str) :
  In (Text t) (yielded (parseClarifaiOutput s)) -> t <> [].
Proof.
  rewrite parse_segments. cbn [yielded fst]. intros H.
  apply in_flat_map in H as (g & Hg & Ht).
  pose proof (segments_well_formed s) as Hwf.
  rewrite Forall_forall in Hwf.
  exact (segment_chunks_text g t (Hwf g Hg) Ht).
Qed.

Lemma text_chunks_nonempty_witness :
  lit "Hello " <> [].
Proof.
  apply (text_chunks_nonempty (lit "Hello <thinking>ponder</thinking> world")).
  vm_compute. left. reflexivity.
Defined.

Lemma trim_start_split s :
  exists ws, s = ws ++ trim_start s /\ forallb is_space ws = true.
Proof.
  induction s as [|c s (ws & Hs & Hws)]; cbn [trim_start].
  - now exists [].
  - destruct (is_space c) eqn:Hc.
    + exists (c :: ws). cbn [app forallb]. rewrite Hc, Hws.
      now rewrite <- Hs.
    + now exists [].
Qed.

Lemma trim_start_head s c :
  hd_error (trim_start s) = Some c -> is_space c = false.
Proof.
  induction s as [|x s IH]; cbn [trim_start]; [discriminate|].
  destruct (is_space x) eqn:Hx; [exact IH|].
  cbn [hd_error]. intros H. now injection H as <-.
Qed.

Lemma trim_start_fixed s :
  (forall c, hd_error s = Some c -> is_space c = false) -> trim_start s = s.
Proof.
  destruct s as [|x s]; [reflexivity|]. intros H. cbn [trim_start].
  now rewrite (H x eq_refl).
Qed.

Lemma trim_start_idem s : trim_start (trim_start s) = trim_start s.
Proof. apply trim_start_fixed, trim_start_head. Qed.

Lemma trim_last s c : last_char (trim s) = Some c -> is_space c = false.
Proof.
  unfold last_char, trim, trim_end. rewrite rev_involutive.
  apply trim_start_head.
Qed.

Lemma trim_first s c : first_char (trim s) = Some c -> is_space c = false.
Proof.
  unfold first_char, trim, trim_end.
  destruct (trim_start_split (rev (trim_start s))) as (ws & Hs & _).
  apply (f_equal (@rev char)) in Hs.
  rewrite rev_involutive, rev_app_distr in Hs.
  destruct (rev (trim_start (rev (trim_start s)))) as [|x v] eqn:Hv;
    [discriminate|].
  cbn [hd_error]. intros H. injection H as ->.
  apply (trim_start_head s). now rewrite Hs.
Qed.

Lemma trim_idem s : trim (trim s) = trim s.
Proof.
  assert (H1 : trim_start (trim s) = trim s)
    by (apply trim_start_fixed, trim_first).
  unfold trim at 1. rewrite H1.
  unfold trim, trim_end. rewrite rev_involutive.
  now rewrite trim_start_idem.
Qed.

Lemma segment_chunks_reasoning g t :
  In (Reasoning t) (segment_chunks g) -> exists X, t = trim X.
Proof.
  destruct g as [[|x u]|T X|o b c]; cbn [segment_chunks In];
    intros H; try (destruct H as [H|[]]; try discriminate); try contradiction.
  injection H as <-. now exists X.
Qed.

(** X2: the value of a reasoning chunk has no white space at either end,
    and trimming it again changes nothing. *)
Theorem reasoning_chunks_trimmed (s t : str) :
  In (Reasoning t) (yielded (parseClarifaiOutput s)) ->
  trim t = t
  /\ (forall c, first_char t = Some c -> is_space c = false)
  /\ (forall c, last_char t = Some c -> is_space c = false).
Proof.
  rewrite parse_segments. cbn [yielded fst]. intros H.
  apply in_flat_map in H as (g & _ & Ht).
  apply segment_chunks_reasoning in Ht as (X & ->).
  split; [apply trim_idem|]. split; intros c.
  - apply trim_first.
  - apply trim_last.
Qed.

Lemma reasoning_chunks_trimmed_witness :
  trim (lit "ponder it") = lit "ponder it".
Proof.
  apply (reasoning_chunks_trimmed
           (lit "Hello <thinking>  ponder it </thinking> world")).
  vm_compute. right. left. reflexivity.
Defined.

(** ** A tag block ends at the first closing tag *)

Section LazyFirst.

Variable input : str.

(** A lazy star stops at the first position where its continuation
    succeeds. *)
Lemma star_lazy_first p (k : cont) : forall rest i c x,
  skipn i input = rest -> i <= length input ->
  star_lazy p k i rest c = Some x ->
  exists j, i <= j <= length input
            /\ k j (skipn j input) c = Some x
            /\ forall j', i <= j' < j -> k j' (skipn j' input) c = None.
Proof.
  induction rest as [|y rest IH]; intros i c x Hr Hi H; cbn [star_lazy] in H.
  - destruct (k i [] c) as [r|] eqn:Hk; [|discriminate].
    injection H as ->. exists i. rewrite Hr.
    repeat split; try lia; try assumption.
  - destruct (k i (y :: rest) c) as [r|] eqn:Hk.
    + injection H as ->. exists i. rewrite Hr.
      repeat split; try lia; try assumption.
    + destruct (skipn_cons_inv _ _ _ _ Hr) as (Hlt & _ & Hr').
      destruct (p y); [|discriminate].
      destruct (IH _ _ _ Hr' Hlt H) as (j & Hj & Hkj & Hmin).
      exists j. repeat split; try lia; try assumption.
      intros j' Hj'. destruct (Nat.eq_dec j' i) as [-> | Hne].
      * now rewrite Hr.
      * apply Hmin. lia.
Qed.

Lemma search_run r : forall rest i m,
  skipn i input = rest -> i <= length input ->
  search input r i rest = Some m ->
  m_index m <= length input
  /\ run input r accept (m_index m) (skipn (m_index m) input) []
     = Some (m_end m, m_caps m).
Proof.
  induction rest as [|y rest IH]; intros i m Hr Hi H; cbn [search] in H.
  - destruct (run input r accept i [] []) as [[e c]|] eqn:Hrun;
      [|discriminate].
    injection H as <-. cbn [m_index m_end m_caps]. now rewrite Hr.
  - destruct (run input r accept i (y :: rest) []) as [[e c]|] eqn:Hrun.
    + injection H as <-. cbn [m_index m_end m_caps]. now rewrite Hr.
    + destruct (skipn_cons_inv _ _ _ _ Hr) as (Hlt & _ & Hr').
      exact (IH _ _ Hr' Hlt H).
Qed.

(** A successful run of the tag alternative: the captures, and no closing
    tag starts inside the captured content. *)
Lemma run_tagBlock_first i e c :
  i <= length input ->
  run input tagBlock accept i (skipn i input) [] = Some (e, c) ->
  exists T a b,
    tag_name T
    /\ c = [(2, (a, b)); (1, (S i, S i + length T))]
    /\ substring input (S i) (S i + length T) = T
    /\ a <= b <= length input
    /\ forall j, a <= j < b ->
                 starts_with (closing_tag T) (skipn j input) = false.
Proof.
  intros Hi H. unfold tagBlock in H.
  rewrite run_Seq in H.
  apply run_sound in H as (j1 & c1 & (_ & -> & ->) & Hb1 & H); [|assumption].
  cbv beta in H. rewrite run_Seq in H.
  apply run_sound in H as (j2 & c2 & (c1' & Hn & ->) & Hb2 & H); [|lia].
  cbv beta in H. rewrite run_Seq in H.
  apply run_sound in H as (j3 & c3 & (_ & -> & ->) & Hb3 & H); [|lia].
  cbv beta in H. rewrite run_Seq, run_Group, run_Star_lazy in H.
  apply (star_lazy_first _ _ _ _ _ _ eq_refl) in H
    as (j4 & Hb4 & H & Hmin); [|lia].
  assert (HT : exists T, tag_name T /\ substring input (i + 1) j2 = T
                         /\ j2 = i + 1 + length T /\ c1' = []).
  { unfold tagNames in Hn. cbn [den] in Hn. lit_lengths.
    destruct Hn as [(H1 & H2 & H3)|[(H1 & H2 & H3)|(H1 & H2 & H3)]].
    - exists (lit "task"). unfold tag_name. lit_lengths. auto.
    - exists (lit "environment_details"). unfold tag_name. lit_lengths.
      auto 6.
    - exists (lit "thinking"). unfold tag_name. lit_lengths. auto 6. }
  destruct HT as (T & HT & HsT & -> & ->). lit_lengths.
  assert (Hclose : forall j,
             run input (Str (lit "</") +> Backref 1 +> Str (lit ">"))%re
                 accept j (skipn j input)
                 (set_cap 2 (i + 1 + length T + 1, j)
                          (set_cap 1 (i + 1, i + 1 + length T) []))
             = if starts_with (closing_tag T) (skipn j input)
               then Some (j + 2 + length T + 1,
                          set_cap 2 (i + 1 + length T + 1, j)
                                  (set_cap 1 (i + 1, i + 1 + length T) []))
               else None).
  { intros j. apply (run_closing input T j _ _ (i + 1) (i + 1 + length T));
      [reflexivity | exact HsT]. }
  cbv beta in H, Hmin. rewrite Hclose in H.
  destruct (starts_with (closing_tag T) (skipn j4 input)) eqn:Hs;
    [|discriminate].
  injection H as <- <-.
  exists T, (i + 1 + length T + 1), j4.
  replace (i + 1) with (S i) in * by lia.
  repeat split; try lia; try assumption.
  intros j Hj. specialize (Hmin j Hj). rewrite Hclose in Hmin.
  now destruct (starts_with (closing_tag T) (skipn j input)).
Qed.

End LazyFirst.

Lemma includes_true s t :
  includes s t = true ->
  exists j, j <= length s /\ starts_with t (skipn j s) = true.
Proof.
  induction s as [|x s IH]; cbn [includes]; intros H;
    apply orb_true_iff in H as [H|H].
  - exists 0. split; [lia | exact H].
  - discriminate.
  - exists 0. split; [cbn [length]; lia | exact H].
  - destruct (IH H) as (j & Hj & Hs). exists (S j).
    split; [cbn [length]; lia | exact Hs].
Qed.

Lemma includes_false_true s t :
  includes s t = false ->
  forall j, starts_with t (skipn j s) = false.
Proof. intros H j. now apply includes_skipn. Qed.

Lemma skipn_substring s a b :
  a <= b -> b <= length s -> skipn a s = substring s a b ++ skipn b s.
Proof.
  intros Hab Hb. rewrite <- !substring_to_end.
  apply substring_split; lia.
Qed.

(** An occurrence of [t] inside [substring s a b] is an occurrence in [s]
    that starts before [b]. *)
Lemma includes_substring s a b t :
  a <= b -> b <= length s -> t <> [] ->
  includes (substring s a b) t = true ->
  exists j, a <= j < b /\ starts_with t (skipn j s) = true.
Proof.
  intros Hab Hb Ht H.
  apply includes_true in H as (j & Hj & Hs).
  rewrite substring_length in Hj by assumption.
  apply starts_with_app in Hs as (u & Hu).
  assert (Hlt : j < b - a).
  { destruct (Nat.eq_dec j (b - a)) as [-> | Hne]; [|lia].
    rewrite skipn_all2 in Hu by (rewrite substring_length; lia).
    destruct t; [now contradiction Ht | discriminate]. }
  exists (a + j). split; [lia|].
  apply starts_with_app. exists (u ++ skipn b s).
  rewrite Nat.add_comm, <- skipn_skipn, (skipn_substring s a b Hab Hb).
  rewrite skipn_app, Hu.
  replace (j - length (substring s a b)) with 0
    by (rewrite substring_length; lia).
  cbn [skipn]. now rewrite <- app_assoc.
Qed.

Lemma exec_run s lastIndex m :
  exec s blockRegex lastIndex = Some m ->
  m_index m <= length s
  /\ run s blockRegex accept (m_index m) (skipn (m_index m) s) []
     = Some (m_end m, m_caps m).
Proof.
  unfold exec. destruct (Nat.leb lastIndex (length s)) eqn:Hle;
    [|discriminate].
  apply Nat.leb_le in Hle.
  apply (search_run s blockRegex _ _ m eq_refl Hle).
Qed.

Lemma matchesFrom_exec s m : forall fuel lastIndex,
  In m (matchesFrom fuel s lastIndex) ->
  exists lastIndex', exec s blockRegex lastIndex' = Some m.
Proof.
  induction fuel as [|fuel IH]; intros li; cbn [matchesFrom]; [intros []|].
  destruct (exec s blockRegex li) as [m'|] eqn:He; [|intros []].
  intros [<- | H]; [now exists li | exact (IH _ H)].
Qed.

Lemma segments_from_tag s T X : forall ms lastIndex,
  In (TagBlock T X) (segments_from s lastIndex ms) ->
  exists m, In m ms /\ block_segment s m = TagBlock T X.
Proof.
  induction ms as [|m ms IH]; intros li; cbn [segments_from In].
  - intros [H|[]]. discriminate.
  - intros [H|[H|H]]; [discriminate| |].
    + exists m. now split; [left|].
    + destruct (IH _ H) as (m' & Hm' & Hb). exists m'. now split; [right|].
Qed.

Lemma closing_tag_nonempty T : closing_tag T <> [].
Proof. discriminate. Qed.

Lemma exec_tag_first_close s lastIndex m T X :
  exec s blockRegex lastIndex = Some m ->
  block_segment s m = TagBlock T X ->
  includes X (closing_tag T) = false.
Proof.
  intros He Hseg. apply exec_run in He as (Hi & Hrun).
  unfold blockRegex in Hrun.
  change (run s (?a <|> ?b)%re accept ?i ?r [])
    with (match run s a accept i r [] with
          | Some x => Some x
          | None => run s b accept i r []
          end) in Hrun.
  destruct (run s tagBlock accept (m_index m) (skipn (m_index m) s) [])
    as [[e c]|] eqn:Htag.
  - injection Hrun as He Hc.
    apply run_tagBlock_first in Htag
      as (T' & a & b & HT & -> & HsT & Hab & Hmin); [|assumption].
    unfold block_segment in Hseg. rewrite <- Hc in Hseg.
    cbn [get_cap Nat.eqb] in Hseg. rewrite HsT in Hseg.
    injection Hseg as <- <-.
    destruct (includes (substring s a b) (closing_tag T')) eqn:Hinc;
      [|reflexivity].
    apply includes_substring in Hinc as (j & Hj & Hs);
      try lia; [|apply closing_tag_nonempty].
    rewrite (Hmin j Hj) in Hs. discriminate.
  - apply run_sound in Hrun as (j & c' & Hden & Hj & Hacc); [|assumption].
    unfold accept in Hacc. injection Hacc as -> ->.
    cbn [den] in Hden.
    assert (Hfence : exists n a b, (n = 3 \/ n = 4) /\ m_caps m = [(n, (a, b))]).
    { destruct Hden as [Hden|Hden];
        apply fencedBlock_den in Hden; try lia;
        destruct Hden as (a & b & ws & Hc & _); eauto 7. }
    destruct Hfence as (n & a & b & Hn & Hc).
    unfold block_segment in Hseg. rewrite Hc in Hseg.
    destruct Hn as [-> | ->]; discriminate.
Qed.

(** X3: the inner content of a recognized tag block never contains the
    closing tag of that block: the block ends at the first closing tag. *)
Theorem tag_block_ends_at_first_closing_tag (s T X : str) :
  In (TagBlock T X) (segments s) ->
  includes X (closing_tag T) = false.
Proof.
  intros H. unfold segments in H.
  apply segments_from_tag in H as (m & Hm & Hseg).
  apply matchesFrom_exec in Hm as (li & He).
  exact (exec_tag_first_close s li m T X He Hseg).
Qed.

Lemma tag_block_ends_at_first_closing_tag_witness :
  includes (lit "a<task>b") (closing_tag (lit "task")) = false.
Proof.
  apply (tag_block_ends_at_first_closing_tag
           (lit "x<task>a<task>b</task>c</task>")).
  vm_compute. right. left. reflexivity.
Defined.

(** ** Responses without closing tag or fence *)

Lemma includes_app p t q : includes (p ++ t ++ q) t = true.
Proof.
  induction p as [|x p IH].
  - cbn [app]. destruct (t ++ q) eqn:Htq; cbn [includes];
      rewrite <- Htq, starts_with_refl; reflexivity.
  - cbn [app includes]. rewrite IH. apply orb_true_r.
Qed.

Lemma includes_of_substring s a b u t v :
  a <= b -> b <= length s ->
  substring s a b = u ++ t ++ v -> includes s t = true.
Proof.
  intros Hab Hb H.
  assert (Hs : s = (substring s 0 a ++ u) ++ t ++ (v ++ skipn b s)).
  { rewrite <- (substring_all s) at 1.
    rewrite (substring_split s 0 a (length s)) by lia.
    rewrite (substring_split s a b (length s)) by lia.
    rewrite H, substring_to_end. now rewrite <- !app_assoc. }
  rewrite Hs. apply includes_app.
Qed.

Lemma block_needs_closer s m :
  block_shape s m -> m_index m <= m_end m -> m_end m <= length s ->
  includes s (closing_tag (lit "task")) = true
  \/ includes s (closing_tag (lit "environment_details")) = true
  \/ includes s (closing_tag (lit "thinking")) = true
  \/ includes s fence = true.
Proof.
  intros [T X HT H1 H2 Hf|marker n a b ws Hn Hc Ha Hab He Hm Hnl Hcl Hws]
         Hie Hel.
  - assert (Hin : includes s (closing_tag T) = true).
    { apply (includes_of_substring s (m_index m) (m_end m)
               (lit "<" ++ T ++ lit ">" ++ X) (closing_tag T) []);
        try assumption.
      unfold full_match in Hf. rewrite Hf. unfold closing_tag.
      now rewrite app_nil_r, <- !app_assoc. }
    destruct HT as [-> | [-> | ->]]; auto.
  - right. right. right.
    apply (includes_of_substring s b (m_end m) ws fence []); try lia.
    now rewrite app_nil_r.
Qed.

(** X4: a non-empty response that contains none of the three closing tags
    and no code fence has no recognized block: it is passed through as one
    text chunk (an unclosed tag stays in the text). *)
Theorem unclosed_response_passes_through (s : str) :
  includes s (closing_tag (lit "task")) = false ->
  includes s (closing_tag (lit "environment_details")) = false ->
  includes s (closing_tag (lit "thinking")) = false ->
  includes s fence = false ->
  0 < length s ->
  recognized s = [] /\ parseClarifaiOutput s = ([Text s], Done tt).
Proof.
  intros H1 H2 H3 H4 Hlen.
  assert (He : exec s blockRegex 0 = None).
  { destruct (exec s blockRegex 0) as [m|] eqn:He; [|reflexivity].
    apply exec_blockRegex in He as (_ & Hie & Hel & Hshape).
    destruct (block_needs_closer s m Hshape) as [H|[H|[H|H]]];
      try lia; congruence. }
  unfold recognized, parseClarifaiOutput.
  cbn [matchesFrom parseLoop]. rewrite He.
  apply Nat.ltb_lt in Hlen. now rewrite Hlen.
Qed.

Lemma unclosed_response_passes_through_witness :
  parseClarifaiOutput (lit "<thinking>still thinking, tool_code `x`")
  = ([Text (lit "<thinking>still thinking, tool_code `x`")], Done tt).
Proof.
  apply (unclosed_response_passes_through
           (lit "<thinking>still thinking, tool_code `x`"));
    try reflexivity.
  vm_compute. lia.
Defined.

(** * Further properties of [stream] *)

Lemma parse_returns s : exists cs, parseClarifaiOutput s = (cs, Done tt).
Proof. eexists. apply parse_segments. Qed.

Lemma on_response_outcome r :
  (exists cs, on_response r = (cs, Done tt))
  \/ (exists m, on_response r = ([], Threw (Error m))).
Proof.
  unfold on_response.
  destruct (N.eqb (status r) 200 && has_outputs r).
  - left. destruct (0 <? length (collect_outputs (response_outputs r))).
    + apply parse_returns.
    + now exists [].
  - right. eexists. reflexivity.
Qed.

Lemma on_error_outcome e :
  on_error e = ([], Done tt) \/ exists m, on_error e = ([], Threw (Error m)).
Proof.
  destruct e as [m| |msg resp|t]; cbn [on_error].
  - right. eexists. reflexivity.
  - now left.
  - right. eexists. reflexivity.
  - right. eexists. reflexivity.
Qed.

(** X5: whatever the configuration and the transport do, a call makes at
    most one request and either returns normally or throws an [Error]
    without having yielded a chunk; an error is never preceded by chunks
    and the scan never fails to terminate. *)
Theorem stream_outcome options post systemPrompt messages :
  length (requests (stream options post systemPrompt messages)) <= 1
  /\ (finished (produced (stream options post systemPrompt messages)) = Done tt
      \/ exists m, produced (stream options post systemPrompt messages)
                   = ([], Threw (Error m))).
Proof.
  unfold stream.
  destruct (negb (truthy (clarifaiPat options)));
    [cbn; split; [lia | right; eexists; reflexivity]|].
  destruct (negb (truthy (apiModelId options)));
    [cbn; split; [lia | right; eexists; reflexivity]|].
  match goal with
  | |- context [if ?b then _ else _] => destruct b
  end; [cbn; split; [lia | right; eexists; reflexivity]|].
  cbn [requests produced length]. split; [lia|].
  match goal with
  | |- context [post ?req] => destruct (post req) as [r|e]
  end.
  - destruct (on_response_outcome r) as [(cs & ->) | (m & ->)].
    + now left.
    + right. cbn [try_catch on_error error_message app]. eexists. reflexivity.
  - unfold throw, try_catch.
    destruct (on_error_outcome e) as [-> | (m & ->)].
    + now left.
    + right. eexists. reflexivity.
Qed.

(** X6: a response that resolves but fails the guard (status other than
    200, or no [outputs] entry) makes the call throw a stream error that
    wraps the API error: the [Error] thrown inside [try] is caught by the
    handler's own [catch] clause and wrapped again.  The code is the
    envelope's when it is non-zero, else the HTTP status; the description
    is the envelope's when it is non-empty, else ["Unknown error"].  A
    rejection that is neither a cancellation nor an Axios error is wrapped
    in the same way. *)
Theorem guard_failure_is_wrapped options post systemPrompt messages req :
  In req (requests (stream options post systemPrompt messages)) ->
  (forall r,
      post req = Resolved r ->
      status r <> 200%N \/ has_outputs r = false ->
      produced (stream options post systemPrompt messages)
      = ([], Threw (Error
                      (MsgStreamError
                         (MsgApiError
                            (CodeNum (or_else (env_code (data r)) nonzero
                                              (status r)))
                            (or_else (env_description (data r)) nonempty
                                     (lit "Unknown error")))))))
  /\ (forall t,
         post req = Rejected (Foreign t) ->
         produced (stream options post systemPrompt messages)
         = ([], Threw (Error (MsgStreamError (MsgForeign t))))).
Proof.
  intros Hreq.
  destruct (stream_requests _ _ _ _ _ Hreq) as (_ & _ & ->). split.
  - intros r -> Hguard. unfold on_response.
    assert (Hg : N.eqb (status r) 200 && has_outputs r = false).
    { destruct Hguard as [H|H].
      - apply N.eqb_neq in H. now rewrite H.
      - rewrite H. apply andb_false_r. }
    now rewrite Hg.
  - now intros t ->.
Qed.

Lemma guard_failure_is_wrapped_witness :
  produced (stream sampleOptions
                   (fun _ => Resolved
                               (mkResponse 201
                                  (Some (mkEnvelope None (Some 9%N)
                                                    (Some (lit "bad"))))))
                   (lit "hi") [])
  = ([], Threw (Error (MsgStreamError
                         (MsgApiError (CodeNum 9) (lit "bad"))))).
Proof.
  refine (proj1 (guard_failure_is_wrapped
           sampleOptions
           (fun _ => Resolved
                       (mkResponse 201
                          (Some (mkEnvelope None (Some 9%N)
                                            (Some (lit "bad"))))))
           (lit "hi") []
           (mkRequest
              (lit "https://api.clarifai.com/v2/users/user/apps/app/models/name/outputs")
              (lit "Key key") (lit "System: hi" ++ [nl; nl]))
           _) _ eq_refl _).
  - vm_compute. left. reflexivity.
  - left. discriminate.
Defined.

(** X7: when [axios.post] rejects with an Axios error, the call yields
    nothing and throws an API error that is not wrapped: without a response
    its code is ["Network Error"] and its description the Axios message;
    with a response, the code is the envelope's when non-zero, else the
    HTTP status, and the description the envelope's when non-empty, else
    the Axios message. *)
Theorem axios_failure_is_api_error options post systemPrompt messages req msg :
  In req (requests (stream options post systemPrompt messages)) ->
  (post req = Rejected (AxiosError msg None) ->
   produced (stream options post systemPrompt messages)
   = ([], Threw (Error (MsgApiError (CodeText (lit "Network Error")) msg))))
  /\ (forall r n,
         post req = Rejected (AxiosError msg (Some r)) ->
         env_code (data r) = Some n -> n <> 0%N ->
         produced (stream options post systemPrompt messages)
         = ([], Threw (Error (MsgApiError
                                (CodeNum n)
                                (or_else (env_description (data r)) nonempty
                                         msg)))))
  /\ (forall r,
         post req = Rejected (AxiosError msg (Some r)) ->
         env_code (data r) = None \/ env_code (data r) = Some 0%N ->
         status r <> 0%N ->
         produced (stream options post systemPrompt messages)
         = ([], Threw (Error (MsgApiError
                                (CodeNum (status r))
                                (or_else (env_description (data r)) nonempty
                                         msg))))).
Proof.
  intros Hreq.
  destruct (stream_requests _ _ _ _ _ Hreq) as (_ & _ & ->).
  repeat split.
  - now intros ->.
  - intros r n -> Hn Hnz. cbn [throw try_catch on_error app]. rewrite Hn.
    apply N.eqb_neq in Hnz. unfold nonzero. now rewrite Hnz.
  - intros r -> Hn Hst. cbn [throw try_catch on_error app].
    apply N.eqb_neq in Hst. unfold nonzero. rewrite Hst. cbn [negb].
    now destruct Hn as [-> | ->].
Qed.

Lemma axios_failure_is_api_error_witness :
  produced (stream sampleOptions
                   (fun _ => Rejected (AxiosError (lit "timeout") None))
                   (lit "hi") [])
  = ([], Threw (Error (MsgApiError (CodeText (lit "Network Error"))
                                   (lit "timeout")))).
Proof.
  refine (proj1 (axios_failure_is_api_error
           sampleOptions
           (fun _ => Rejected (AxiosError (lit "timeout") None))
           (lit "hi") []
           (mkRequest
              (lit "https://api.clarifai.com/v2/users/user/apps/app/models/name/outputs")
              (lit "Key key") (lit "System: hi" ++ [nl; nl]))
           (lit "timeout") _) eq_refl).
  vm_compute. left. reflexivity.
Defined.

Lemma collect_outputs_texts os : forall acc,
  fold_left append_output os acc
  = acc ++ concat (map (fun t => t ++ [nl]) (usable_texts os)).
Proof.
  induction os as [|o os IH]; intros acc; cbn [fold_left usable_texts flat_map].
  - cbn. now rewrite app_nil_r.
  - rewrite IH. unfold append_output.
    destruct (out_raw o) as [[|x t]|]; cbn [nonempty app map concat];
      try reflexivity.
    unfold usable_texts. rewrite <- ?app_assoc. cbn [app].
    now rewrite <- ?app_assoc.
Qed.

(** X8: when the request is answered with status 200 and at least one
    output has a non-empty text, the call behaves as the tokenizer run on
    the kept texts, in the order of the outputs, each followed by a
    newline; outputs without text are skipped. *)
Theorem successful_response_is_tokenized
        options post systemPrompt messages req r os :
  In req (requests (stream options post systemPrompt messages)) ->
  post req = Resolved r ->
  status r = 200%N ->
  env_outputs (data r) = Some os ->
  0 < length (usable_texts os) ->
  produced (stream options post systemPrompt messages)
  = parseClarifaiOutput (concat (map (fun t => t ++ [nl]) (usable_texts os))).
Proof.
  intros Hreq Hpost Hst Hos Hlen.
  destruct (stream_requests _ _ _ _ _ Hreq) as (_ & _ & ->).
  rewrite Hpost. unfold on_response, has_outputs, response_outputs.
  rewrite Hst, Hos. cbn [N.eqb Pos.eqb andb].
  unfold collect_outputs. rewrite collect_outputs_texts. cbn [app].
  assert (Hos_len : (0 <? length os) = true).
  { apply Nat.ltb_lt. destruct os; [cbn in Hlen; lia | cbn; lia]. }
  assert (Htext : (0 <? length (concat (map (fun t => t ++ [nl])
                                            (usable_texts os)))) = true).
  { apply Nat.ltb_lt. destruct (usable_texts os) as [|t ts];
      [cbn in Hlen; lia|].
    cbn [map concat]. rewrite !length_app. cbn [length]. lia. }
  rewrite Hos_len, Htext.
  destruct (parse_returns (concat (map (fun t => t ++ [nl]) (usable_texts os))))
    as (cs & ->).
  reflexivity.
Qed.

Lemma successful_response_is_tokenized_witness :
  produced (stream sampleOptions
                   (fun _ => Resolved
                               (mkResponse 200
                                  (Some (mkEnvelope
                                           (Some [mkOutput (Some (lit "<thinking>a"));
                                                  mkOutput None;
                                                  mkOutput (Some (lit "b</thinking>"))])
                                           None None))))
                   (lit "hi") [])
  = ([Reasoning (lit "a" ++ [nl] ++ lit "b"); Text [nl]], Done tt).
Proof.
  eapply eq_trans.
  refine (successful_response_is_tokenized
           sampleOptions
           (fun _ => Resolved
                       (mkResponse 200
                          (Some (mkEnvelope
                                   (Some [mkOutput (Some (lit "<thinking>a"));
                                          mkOutput None;
                                          mkOutput (Some (lit "b</thinking>"))])
                                   None None))))
           (lit "hi") []
           (mkRequest
              (lit "https://api.clarifai.com/v2/users/user/apps/app/models/name/outputs")
              (lit "Key key") (lit "System: hi" ++ [nl; nl]))
           _ _ _ eq_refl eq_refl eq_refl _).
  - vm_compute. left. reflexivity.
  - vm_compute. lia.
  - vm_compute. reflexivity.
Defined.

(** ** The request of a valid configuration *)

Lemma split_on_free sep u :
  free_of sep u = true -> split_on sep u = [u].
Proof.
  induction u as [|c u IH]; [reflexivity|].
  cbn [free_of forallb split_on]. intros H.
  apply andb_true_iff in H as [Hc Hu]. apply negb_true_iff in Hc.
  rewrite Hc. unfold free_of in IH. now rewrite (IH Hu).
Qed.

Lemma split_on_app sep u rest :
  free_of sep u = true ->
  split_on sep (u ++ sep :: rest) = u :: split_on sep rest.
Proof.
  induction u as [|c u IH]; cbn [free_of forallb app split_on].
  - intros _. unfold char_eqb. now rewrite N.eqb_refl.
  - intros H. apply andb_true_iff in H as [Hc Hu]. apply negb_true_iff in Hc.
    rewrite Hc. unfold free_of in IH. now rewrite (IH Hu).
Qed.

Lemma split_on_nonempty sep s : split_on sep s <> [].
Proof.
  destruct s as [|c s]; cbn [split_on]; [discriminate|].
  destruct (char_eqb c sep); [discriminate|].
  destruct (split_on sep s); discriminate.
Qed.

Lemma split_on_join sep s : join [sep] (split_on sep s) = s.
Proof.
  induction s as [|c s IH]; [reflexivity|]. cbn [split_on].
  pose proof (split_on_nonempty sep s) as Hne.
  destruct (split_on sep s) as [|seg segs] eqn:Hs; [contradiction|].
  destruct (char_eqb c sep) eqn:Hc.
  - apply char_eqb_eq in Hc as ->.
    change (join [sep] ([] :: seg :: segs))
      with ([] ++ [sep] ++ join [sep] (seg :: segs)).
    now rewrite IH.
  - destruct segs as [|seg' segs].
    + cbn [join] in *. now rewrite IH.
    + change (join [sep] ((c :: seg) :: seg' :: segs))
        with (c :: seg ++ [sep] ++ join [sep] (seg' :: segs)).
      change (join [sep] (seg :: seg' :: segs))
        with (seg ++ [sep] ++ join [sep] (seg' :: segs)) in IH.
      now rewrite IH.
Qed.

Lemma split_on_parts_free sep s :
  Forall (fun p => free_of sep p = true) (split_on sep s).
Proof.
  induction s as [|c s IH]; [repeat constructor|]. cbn [split_on].
  destruct (char_eqb c sep) eqn:Hc.
  - constructor; [reflexivity | exact IH].
  - destruct (split_on sep s) as [|seg segs].
    + repeat constructor. cbn. now rewrite Hc.
    + inversion IH as [|? ? Hseg Hsegs]; subst.
      constructor; [|assumption]. cbn [free_of forallb].
      rewrite Hc. exact Hseg.
Qed.

Lemma well_shaped_parts modelId :
  well_shaped modelId = true ->
  exists u a m,
    split_on slash modelId = [u; a; lit "models"; m]
    /\ modelId = u ++ [slash] ++ a ++ lit "/models/" ++ m
    /\ free_of slash u = true /\ free_of slash a = true
    /\ free_of slash m = true.
Proof.
  unfold well_shaped. intros H. apply andb_true_iff in H as [Hlen Hmod].
  apply Nat.eqb_eq in Hlen.
  pose proof (split_on_join slash modelId) as Hjoin.
  pose proof (split_on_parts_free slash modelId) as Hfree.
  change 47%N with slash in *.
  destruct (split_on slash modelId) as [|u [|a [|md [|m [|? ?]]]]];
    try discriminate.
  cbn [nth] in Hmod. apply str_eqb_eq in Hmod as ->.
  inversion Hfree as [|? ? Hu Hrest]; subst.
  inversion Hrest as [|? ? Ha Hrest']; subst.
  inversion Hrest' as [|? ? _ Hrest'']; subst.
  inversion Hrest'' as [|? ? Hm _]; subst.
  exists u, a, m. repeat split; assumption.
Qed.

(** X9: a model id passes the shape check exactly when it is
    [u/a/models/m] with no slash in [u], [a] and [m]; and for such an id
    and a non-empty token the call makes exactly one request, to
    [<base>/v2/users/u/apps/a/models/m/outputs] with the header
    [Key <token>] and the flattened conversation, where [<base>] is the
    configured base URL, or the default one when none or an empty one is
    configured. *)
Theorem request_of_valid_configuration :
  (forall modelId,
      well_shaped modelId = true
      <-> exists u a m,
          modelId = u ++ [slash] ++ a ++ lit "/models/" ++ m
          /\ free_of slash u = true /\ free_of slash a = true
          /\ free_of slash m = true)
  /\ (forall options post systemPrompt messages pat u a m,
         clarifaiPat options = Some pat -> 0 < length pat ->
         apiModelId options = Some (u ++ [slash] ++ a ++ lit "/models/" ++ m) ->
         free_of slash u = true -> free_of slash a = true ->
         free_of slash m = true ->
         requests (stream options post systemPrompt messages)
         = [mkRequest
              (or_else (clarifaiApiBaseUrl options) nonempty defaultBaseUrl
                 ++ lit "/v2/users/" ++ u ++ lit "/apps/" ++ a
                 ++ lit "/models/" ++ m ++ lit "/outputs")
              (lit "Key " ++ pat)
              (buildInputText systemPrompt messages)]).
Proof.
  assert (Hsplit : forall u a m,
             free_of slash u = true -> free_of slash a = true ->
             free_of slash m = true ->
             split_on slash (u ++ [slash] ++ a ++ lit "/models/" ++ m)
             = [u; a; lit "models"; m]).
  { intros u a m Hu Ha Hm.
    change (u ++ [slash] ++ a ++ lit "/models/" ++ m)
      with (u ++ slash :: a ++ slash :: lit "models" ++ slash :: m).
    rewrite !split_on_app by (assumption || reflexivity).
    now rewrite split_on_free. }
  split.
  - intros modelId. split.
    + intros H. destruct (well_shaped_parts modelId H)
        as (u & a & m & _ & Hid & Hu & Ha & Hm).
      now exists u, a, m.
    + intros (u & a & m & -> & Hu & Ha & Hm).
      unfold well_shaped. change 47%N with slash.
      now rewrite (Hsplit u a m Hu Ha Hm).
  - intros options post systemPrompt messages pat u a m Hpat Hlen Hid
           Hu Ha Hm.
    unfold stream. rewrite Hpat, Hid.
    destruct pat as [|p pat]; [cbn in Hlen; lia|].
    assert (Hne : truthy (Some (u ++ [slash] ++ a ++ lit "/models/" ++ m))
                  = true) by now destruct u.
    rewrite Hne. cbn [truthy negb].
    match goal with
    | |- context [or_else (A:=?T) (Some ?v) nonempty []] =>
        replace (or_else (A:=T) (Some v) nonempty []) with v
          by now destruct u
    end.
    change 47%N with slash.
    rewrite (Hsplit u a m Hu Ha Hm). reflexivity.
Qed.

Lemma request_of_valid_configuration_witness :
  requests (stream (mkOptions (Some (lit "key"))
                              (Some (lit "user/app/models/name"))
                              (Some []))
                   (fun _ => Rejected Cancel) (lit "hi") [])
  = [mkRequest
       (lit "https://api.clarifai.com/v2/users/user/apps/app/models/name/outputs")
       (lit "Key key") (lit "System: hi" ++ [nl; nl])].
Proof.
  refine (proj2 request_of_valid_configuration
                (mkOptions (Some (lit "key"))
                           (Some (lit "user/app/models/name")) (Some []))
                (fun _ => Rejected Cancel) (lit "hi") []
                (lit "key") (lit "user") (lit "app") (lit "name")
                eq_refl _ eq_refl eq_refl eq_refl eq_refl).
  vm_compute. lia.
Defined.

(** * [getModel] *)

(** X10: [getModel] never refuses.  Without a configured model id it
    answers with the default id and what the table holds for it, although
    [stream] called with the same options (and a token) throws "Model ID is
    not configured" without making a request.  With a configured id, the
    id is always kept; its info is what the access [clarifaiModels[id]]
    finds (own or inherited), and only when that access gives [undefined]
    the info of the default model. *)
Theorem getModel_falls_back
        (ModelInfo : Type) (clarifaiModels : str -> option ModelInfo)
        (clarifaiDefaultModelId : str) (options : ApiHandlerOptions) :
  (absent (apiModelId options) ->
   getModel ModelInfo clarifaiModels clarifaiDefaultModelId options
   = (clarifaiDefaultModelId, clarifaiModels clarifaiDefaultModelId)
   /\ forall post systemPrompt messages,
       truthy (clarifaiPat options) = true ->
       stream options post systemPrompt messages
       = mkRun [] (throw (Error MsgModelIdNotConfigured)))
  /\ (forall modelId,
         apiModelId options = Some modelId -> 0 < length modelId ->
         clarifaiModels modelId = None ->
         getModel ModelInfo clarifaiModels clarifaiDefaultModelId options
         = (modelId, clarifaiModels clarifaiDefaultModelId))
  /\ (forall modelId info,
         apiModelId options = Some modelId -> 0 < length modelId ->
         clarifaiModels modelId = Some info ->
         getModel ModelInfo clarifaiModels clarifaiDefaultModelId options
         = (modelId, Some info)).
Proof.
  split; [|split].
  - intros Habs. split.
    + unfold getModel. destruct Habs as [-> | ->]; cbn [or_else nonempty];
        now destruct (clarifaiModels clarifaiDefaultModelId).
    + intros post systemPrompt messages Hpat. unfold stream.
      now rewrite Hpat, (absent_truthy _ Habs).
  - intros modelId Hid Hlen Hnone. unfold getModel. rewrite Hid.
    destruct modelId as [|c modelId]; [cbn in Hlen; lia|].
    cbn [or_else nonempty]. now rewrite Hnone.
  - intros modelId info Hid Hlen Hsome. unfold getModel. rewrite Hid.
    destruct modelId as [|c modelId]; [cbn in Hlen; lia|].
    cbn [or_else nonempty]. now rewrite Hsome.
Qed.

Lemma getModel_falls_back_witness :
  getModel nat (fun id => if str_eqb id (lit "default") then Some 7 else None)
           (lit "default")
           (mkOptions (Some (lit "key")) (Some (lit "u/a/models/other")) None)
  = (lit "u/a/models/other", Some 7).
Proof.
  refine (proj1 (proj2 (getModel_falls_back
                          nat
                          (fun id => if str_eqb id (lit "default") then Some 7
                                     else None)
                          (lit "default")
                          (mkOptions (Some (lit "key"))
                                     (Some (lit "u/a/models/other")) None)))
                (lit "u/a/models/other") eq_refl _ eq_refl).
  vm_compute. lia.
Defined.

(** * [ClarifaiProvider] *)

Lemma star_greedy_at_end p : forall rest i c,
  star_greedy p at_end i rest c
  = if forallb p rest then Some (i + length rest, c) else None.
Proof.
  induction rest as [|x rest IH]; intros i c; cbn [star_greedy forallb length].
  - cbn [at_end]. now rewrite Nat.add_0_r.
  - destruct (p x); cbn [andb at_end]; [|reflexivity].
    rewrite IH. destruct (forallb p rest); [|reflexivity].
    now replace (S i + length rest) with (i + S (length rest)) by lia.
Qed.

Lemma test_tokenPattern token :
  test_anchored tokenPattern token
  = nonempty token && forallb is_alnum token.
Proof.
  unfold test_anchored, tokenPattern. cbn [run].
  destruct token as [|x token]; [reflexivity|].
  cbn [nonempty forallb andb]. destruct (is_alnum x); [|reflexivity].
  rewrite star_greedy_at_end. now destruct (forallb is_alnum token).
Qed.

(** X11: [validateToken] accepts exactly the tokens of at least 32 code
    units that consist of ASCII letters and digits only; white space, a
    trailing newline or any other character makes it reject. *)
Theorem validateToken_alphanumeric (token : str) :
  validateToken token = true
  <-> 32 <= length token /\ forallb is_alnum token = true.
Proof.
  unfold validateToken. rewrite test_tokenPattern, !andb_true_iff.
  rewrite Nat.leb_le. split.
  - intros (Hlen & _ & Hall). now split.
  - intros (Hlen & Hall). repeat split; try assumption.
    destruct token; [cbn in Hlen; lia | reflexivity].
Qed.

Lemma validateToken_alphanumeric_witness :
  validateToken (lit "abcdefghijklmnopqrstuvwxyz012345") = true.
Proof.
  apply (proj2 (validateToken_alphanumeric
                  (lit "abcdefghijklmnopqrstuvwxyz012345"))).
  split; vm_compute; [lia | reflexivity].
Defined.

(** X12: [testConnection] never throws and makes at most one request.
    Without a token it answers [false] without any request; with a token it
    makes one request to [<base>/v2/models] with the header [Key <token>]
    and answers [true] exactly when that request resolves with an [ok]
    response. *)
Theorem testConnection_result options fetch :
  (truthy (clarifaiPat options) = false ->
   testConnection options fetch = ([], false))
  /\ (forall pat,
         clarifaiPat options = Some pat -> 0 < length pat ->
         let req :=
           mkFetch (or_else (clarifaiApiBaseUrl options) nonempty
                            defaultBaseUrl ++ lit "/v2/models")
                   (lit "Key " ++ pat) in
         fst (testConnection options fetch) = [req]
         /\ (snd (testConnection options fetch) = true
             <-> fetch req = FetchResolved true)).
Proof.
  unfold testConnection. split.
  - now intros ->.
  - intros pat -> Hlen. destruct pat as [|c pat]; [cbn in Hlen; lia|].
    cbn [truthy negb or_else nonempty].
    destruct (fetch _) as [[|]|]; cbn [fst snd]; split;
      try reflexivity; split; congruence.
Qed.

Lemma testConnection_result_witness :
  testConnection (mkOptions None (Some (lit "u/a/models/m")) None)
                 (fun _ => FetchResolved true)
  = ([], false).
Proof.
  apply (proj1 (testConnection_result
                  (mkOptions None (Some (lit "u/a/models/m")) None)
                  (fun _ => FetchResolved true))).
  reflexivity.
Defined.

(** * The settings panel *)

(** X13: saving from the settings panel cannot succeed.  Whatever the
    state of the panel and whatever [values] the message carries, the
    extension answers [saveClarifaiSettings] with [success: false], and the
    panel then shows a failed save: [saveResult] is [false], [isSaving] is
    cleared, and the token and base URL typed in are left as they were. *)
Theorem save_settings_always_fails (st : settingsState)
        (values : option (list (str * str))) :
  let st1 := fst (handleSave st) in
  let st2 := handler st1 (saveClarifaiSettingsCase values) in
  isSaving st1 = true
  /\ snd (handleSave st) = SaveClarifaiSettings (st_pat st) (st_baseUrl st)
  /\ saveResult st2 = Some false
  /\ isSaving st2 = false
  /\ st_pat st2 = st_pat st /\ st_baseUrl st2 = st_baseUrl st.
Proof.
  destruct values; cbn; repeat split.
Qed.

(** * Sets of strings in the global state *)

Lemma set_has_In s x : set_has s x = true <-> In x s.
Proof.
  unfold set_has. rewrite existsb_exists. split.
  - intros (y & Hy & Heq). apply str_eqb_eq in Heq. now subst.
  - intros H. exists x. split; [assumption | now apply str_eqb_eq].
Qed.

Lemma set_has_not_In s x : set_has s x = false <-> ~ In x s.
Proof.
  rewrite <- set_has_In. destruct (set_has s x); split; congruence.
Qed.

Lemma set_add_In s x y : In y (set_add s x) <-> In y s \/ y = x.
Proof.
  unfold set_add. destruct (set_has s x) eqn:Hx.
  - apply set_has_In in Hx. split; [now left|]. intros [H | ->]; assumption.
  - rewrite in_app_iff. cbn [In]. split.
    + intros [H|[H|[]]]; [now left | now right].
    + intros [H|H]; [now left | right; now left].
Qed.

Lemma set_add_NoDup s x : NoDup s -> NoDup (set_add s x).
Proof.
  intros H. unfold set_add. destruct (set_has s x) eqn:Hx; [assumption|].
  apply set_has_not_In in Hx.
  apply NoDup_app; [assumption | repeat constructor; intros [] |].
  intros y Hy [<-|[]]. contradiction.
Qed.

Lemma set_delete_In s x y : In y (set_delete s x) <-> In y s /\ y <> x.
Proof.
  unfold set_delete. rewrite filter_In, negb_true_iff. split.
  - intros [H Hne]. split; [assumption|]. intros ->.
    assert (Ht : str_eqb x x = true) by now apply str_eqb_eq.
    congruence.
  - intros [H Hne]. split; [assumption|].
    destruct (str_eqb x y) eqn:Heq; [|reflexivity].
    apply str_eqb_eq in Heq. congruence.
Qed.

Lemma set_delete_NoDup s x : NoDup s -> NoDup (set_delete s x).
Proof. apply NoDup_filter. Qed.

Lemma set_delete_idem s x : set_delete (set_delete s x) x = set_delete s x.
Proof.
  unfold set_delete. induction s as [|y s IH]; [reflexivity|].
  cbn [filter]. destruct (negb (str_eqb x y)) eqn:Hy; [|exact IH].
  cbn [filter]. now rewrite Hy, IH.
Qed.

Lemma fold_set_add_In l : forall acc y,
  In y (fold_left set_add l acc) <-> In y acc \/ In y l.
Proof.
  induction l as [|x l IH]; intros acc y; cbn [fold_left In].
  - tauto.
  - rewrite IH, set_add_In. intuition congruence.
Qed.

Lemma fold_set_add_NoDup l : forall acc,
  NoDup acc -> NoDup (fold_left set_add l acc).
Proof.
  induction l as [|x l IH]; intros acc H; cbn [fold_left]; [assumption|].
  apply IH. now apply set_add_NoDup.
Qed.

Lemma fold_set_add_fixed l : forall acc,
  NoDup (acc ++ l) -> fold_left set_add l acc = acc ++ l.
Proof.
  induction l as [|x l IH]; intros acc H; cbn [fold_left].
  - now rewrite app_nil_r.
  - assert (Hx : set_has acc x = false).
    { apply set_has_not_In. intros Hin.
      apply NoDup_remove_2 in H. apply H. apply in_app_iff. now left. }
    unfold set_add. rewrite Hx.
    replace (acc ++ x :: l) with ((acc ++ [x]) ++ l) in *
      by now rewrite <- app_assoc.
    now apply IH.
Qed.

Lemma set_of_array_In a y :
  In y (set_of_array a) <-> In y (match a with Some l => l | None => [] end).
Proof.
  destruct a as [l|]; cbn [set_of_array]; [|tauto].
  rewrite fold_set_add_In. cbn [In]. tauto.
Qed.

Lemma set_of_array_NoDup a : NoDup (set_of_array a).
Proof.
  destruct a as [l|]; cbn [set_of_array]; [|constructor].
  apply fold_set_add_NoDup. constructor.
Qed.

Lemma set_of_array_fixed l : NoDup l -> set_of_array (Some l) = l.
Proof. intros H. cbn [set_of_array]. now rewrite fold_set_add_fixed. Qed.

(** X14: [toggleApiConfigPin] with a non-empty [text] writes an array
    without duplicates in which [text] is pinned exactly when it was not
    pinned before and every other id is pinned exactly when it was; sent
    twice, it leaves every id as it was at the start.  Without [text]
    nothing is written. *)
Theorem toggleApiConfigPin_toggles :
  (forall pinned, toggleApiConfigPin None pinned = None
                  /\ toggleApiConfigPin (Some []) pinned = None)
  /\ (forall text pinned,
         0 < length text ->
         exists r,
           toggleApiConfigPin (Some text) pinned = Some r
           /\ NoDup r
           /\ (In text r <-> ~ In text (set_of_array pinned))
           /\ (forall y, y <> text ->
                         (In y r <-> In y (set_of_array pinned)))
           /\ exists r',
               toggleApiConfigPin (Some text) (Some r) = Some r'
               /\ forall y, In y r' <-> In y (set_of_array pinned)).
Proof.
  split; [now split|].
  assert (Hstep : forall text s,
             0 < length text -> NoDup s ->
             exists r,
               toggleApiConfigPin (Some text) (Some s) = Some r
               /\ NoDup r
               /\ (In text r <-> ~ In text s)
               /\ (forall y, y <> text -> (In y r <-> In y s))).
  { intros text s Hlen Hs. destruct text as [|c text]; [cbn in Hlen; lia|].
    cbn [toggleApiConfigPin]. rewrite (set_of_array_fixed s Hs).
    destruct (set_has s (c :: text)) eqn:Hhas; eexists;
      (split; [reflexivity|]).
    - apply set_has_In in Hhas. split; [now apply set_delete_NoDup|].
      split.
      + rewrite set_delete_In. tauto.
      + intros y Hy. rewrite set_delete_In. tauto.
    - apply set_has_not_In in Hhas. split; [now apply set_add_NoDup|].
      split.
      + rewrite set_add_In. tauto.
      + intros y Hy. rewrite set_add_In. tauto. }
  intros text pinned Hlen.
  assert (Hfirst : toggleApiConfigPin (Some text) pinned
                   = toggleApiConfigPin (Some text)
                                        (Some (set_of_array pinned))).
  { destruct text as [|c text]; [cbn in Hlen; lia|].
    cbn [toggleApiConfigPin].
    now rewrite (set_of_array_fixed _ (set_of_array_NoDup pinned)). }
  destruct (Hstep text (set_of_array pinned) Hlen (set_of_array_NoDup pinned))
    as (r & Hr & Hnd & Htext & Hother).
  exists r. rewrite Hfirst. repeat split; try assumption;
    try apply Htext; try apply (Hother _ H).
  destruct (Hstep text r Hlen Hnd) as (r' & Hr' & _ & Htext' & Hother').
  exists r'. split; [assumption|]. intros y.
  destruct (list_eq_dec N.eq_dec y text) as [-> | Hne].
  - rewrite Htext', Htext.
    destruct (set_has (set_of_array pinned) text) eqn:Hh.
    + apply set_has_In in Hh. tauto.
    + apply set_has_not_In in Hh. tauto.
  - now rewrite (Hother' y Hne), (Hother y Hne).
Qed.

Lemma toggleApiConfigPin_toggles_witness :
  exists r,
    toggleApiConfigPin (Some (lit "b")) (Some [lit "a"; lit "b"; lit "a"])
    = Some r
    /\ NoDup r.
Proof.
  destruct (proj2 toggleApiConfigPin_toggles (lit "b")
                  (Some [lit "a"; lit "b"; lit "a"]))
    as (r & Hr & Hnd & _).
  - vm_compute. lia.
  - exists r. split; assumption.
Defined.

(** X15: [setHistoryPreviewCollapsed] with a non-empty [text] writes an
    array without duplicates that contains [text] exactly when [bool] is
    true and every other id exactly when it was there; sending the same
    message again writes the same array.  Without [text] nothing is
    written. *)
Theorem setHistoryPreviewCollapsed_sets :
  (forall collapsed previews,
      setHistoryPreviewCollapsed None collapsed previews = None
      /\ setHistoryPreviewCollapsed (Some []) collapsed previews = None)
  /\ (forall text collapsed previews,
         0 < length text ->
         exists r,
           setHistoryPreviewCollapsed (Some text) collapsed previews = Some r
           /\ NoDup r
           /\ (In text r <-> collapsed = true)
           /\ (forall y, y <> text ->
                         (In y r <-> In y (set_of_array previews)))
           /\ setHistoryPreviewCollapsed (Some text) collapsed (Some r)
              = Some r).
Proof.
  split; [now split|].
  intros text collapsed previews Hlen.
  destruct text as [|c text]; [cbn in Hlen; lia|].
  cbn [setHistoryPreviewCollapsed].
  pose proof (set_of_array_NoDup previews) as Hnd.
  destruct collapsed; eexists; (split; [reflexivity|]).
  - assert (Hnd' : NoDup (set_add (set_of_array previews) (c :: text)))
      by now apply set_add_NoDup.
    split; [assumption|]. split; [|split].
    + rewrite set_add_In. tauto.
    + intros y Hy. rewrite set_add_In. tauto.
    + rewrite (set_of_array_fixed _ Hnd'). f_equal.
      unfold set_add at 1.
      assert (Hin : set_has (set_add (set_of_array previews) (c :: text))
                            (c :: text) = true)
        by (apply set_has_In, set_add_In; now right).
      now rewrite Hin.
  - assert (Hnd' : NoDup (set_delete (set_of_array previews) (c :: text)))
      by now apply set_delete_NoDup.
    split; [assumption|]. split; [|split].
    + rewrite set_delete_In. split; [tauto | discriminate].
    + intros y Hy. rewrite set_delete_In. tauto.
    + rewrite (set_of_array_fixed _ Hnd'). f_equal.
      apply set_delete_idem.
Qed.

Lemma setHistoryPreviewCollapsed_sets_witness :
  exists r,
    setHistoryPreviewCollapsed (Some (lit "t1")) true (Some [lit "t0"])
    = Some r
    /\ In (lit "t1") r.
Proof.
  destruct (proj2 setHistoryPreviewCollapsed_sets (lit "t1") true
                  (Some [lit "t0"]))
    as (r & Hr & _ & Hin & _).
  - vm_compute. lia.
  - exists r. split; [assumption | now apply Hin].
Defined.

(** * Inputs made of plain text and tag blocks *)



















Lemma blocks_follow (bs : list tag_block) :
  block_follows (concat (map (fun b => block_text b ++ blk_after b) bs)).
Proof.
  destruct bs as [|b bs]; [now left|]. right.
  cbn [map concat]. unfold block_text, opening_tag.
  eexists. rewrite <- !app_assoc. reflexivity.
Qed.








